(** * LLM-chat API: chunker, retriever and request handlers

    A shallow embedding of [apps/api/src/index.js] (the RAG revision of the
    Express server): the text chunker, the cosine retriever, the two request
    schemas and the [/rag/ingest] and [/chat] handlers, with the external
    providers and the SQLite table as explicit state.

    Conventions.
    - A JavaScript string is a list of code units; the model keeps the code
      units below 256 (type [ascii]), so [length] is the JS [length].
    - A JavaScript number is an IEEE 754 binary64 value, Rocq's primitive
      [float]; counters, indices and integer-valued settings are [Z].
    - A loop that the source does not bound takes a fuel argument and
      returns [None] when the fuel runs out. *)

From Stdlib Require Import List ZArith Lia Bool Ascii String Floats.
From Stdlib Require Import DecimalString Sorted.
Import ListNotations.

Local Open Scope Z_scope.

(** ** JavaScript strings *)

Module JsString.

Definition jsstring := list ascii.

Definition str (s : string) : jsstring := list_ascii_of_string s.

Definition len (s : jsstring) : Z := Z.of_nat (List.length s).

Definition LF : ascii := ascii_of_nat 10.
Definition CR : ascii := ascii_of_nat 13.

Definition is_LF (c : ascii) : bool := Ascii.eqb c LF.
Definition is_CR (c : ascii) : bool := Ascii.eqb c CR.

Definition jseqb (a b : jsstring) : bool :=
  if list_eq_dec ascii_dec a b then true else false.

(** White space and line terminators of [String.prototype.trim] among the
    code units below 256: TAB, LF, VT, FF, CR, SP and NBSP. *)
Definition is_space (c : ascii) : bool :=
  let n := nat_of_ascii c in
  ((9 <=? n)%nat && (n <=? 13)%nat) || (n =? 32)%nat || (n =? 160)%nat.

Fixpoint trimStart (s : jsstring) : jsstring :=
  match s with
  | c :: rest => if is_space c then trimStart rest else s
  | [] => []
  end.

Definition trimEnd (s : jsstring) : jsstring := rev (trimStart (rev s)).

(** [s.trim()] *)
Definition trim (s : jsstring) : jsstring := trimEnd (trimStart s).

(** Relative index of [slice]: a negative index counts from the end, and the
    result is clamped to [0 .. n]. *)
Definition rel_index (n i : Z) : Z :=
  if i <? 0 then Z.max (n + i) 0 else Z.min i n.

(** [a.slice(start, end)], for strings and arrays alike. *)
Definition slice {A : Type} (a : list A) (start end_ : Z) : list A :=
  let n := Z.of_nat (List.length a) in
  let from := rel_index n start in
  let to := rel_index n end_ in
  firstn (Z.to_nat (to - from)) (skipn (Z.to_nat from) a).

(** [text.replace(/\r\n/g, "\n")] *)
Fixpoint replace_crlf (s : jsstring) : jsstring :=
  match s with
  | [] => []
  | c :: rest =>
      match rest with
      | d :: rest' =>
          if is_CR c && is_LF d then LF :: replace_crlf rest'
          else c :: replace_crlf rest
      | [] => [c]
      end
  end.

Definition cons_head (c : ascii) (parts : list jsstring) : list jsstring :=
  match parts with
  | p :: ps => (c :: p) :: ps
  | [] => [[c]]
  end.

(** [s.split(/\n\n+/)]: the separators are the maximal runs of two or more
    line feeds.  [in_sep] tells that the scan stands inside a separator,
    whose further line feeds the greedy [\n+] consumes.  The first part of
    the result is the part under construction. *)
Fixpoint split_from (in_sep : bool) (s : jsstring) : list jsstring :=
  match s with
  | [] => [[]]
  | c :: rest =>
      if is_LF c then
        if in_sep then split_from true rest
        else
          match rest with
          | d :: rest' =>
              if is_LF d then [] :: split_from true rest'
              else cons_head c (split_from false rest)
          | [] => [[c]]
          end
      else cons_head c (split_from false rest)
  end.

Definition split_blank_lines (s : jsstring) : list jsstring :=
  split_from false s.

(** [parts.join(sep)] *)
Fixpoint join (sep : jsstring) (parts : list jsstring) : jsstring :=
  match parts with
  | [] => []
  | [p] => p
  | p :: ps => p ++ sep ++ join sep ps
  end.

(** [String(n)] and [`${n}`] for an integer [n]. *)
Definition of_Z (n : Z) : jsstring :=
  str (NilZero.string_of_int (Z.to_int n)).

(** [a || b] on strings: the empty string is falsy. *)
Definition or_else (a b : jsstring) : jsstring :=
  match a with [] => b | _ => a end.

End JsString.
Import JsString.

(** ** The chunker *)

Module Chunker.

(** [process.env.RAG_CHUNK_MAX_CHARS] and [process.env.RAG_CHUNK_OVERLAP_CHARS]
    as the integers they denote, [None] when unset. *)
Record Settings := {
  RAG_CHUNK_MAX_CHARS : option Z;
  RAG_CHUNK_OVERLAP_CHARS : option Z
}.

Definition maxLen (cfg : Settings) : Z :=
  match RAG_CHUNK_MAX_CHARS cfg with Some n => n | None => 800 end.

Definition overlap (cfg : Settings) : Z :=
  match RAG_CHUNK_OVERLAP_CHARS cfg with Some n => n | None => 120 end.

Definition defaults : Settings :=
  {| RAG_CHUNK_MAX_CHARS := None; RAG_CHUNK_OVERLAP_CHARS := None |}.

Section Chunk.
Variable cfg : Settings.

(** The [while (start < part.length)] loop of [chunkText]; the chunks it
    pushes, in order.  [None]: the fuel ran out before the loop ended. *)
Fixpoint window_loop (fuel : nat) (part : jsstring) (start : Z)
  : option (list jsstring) :=
  match fuel with
  | O => None
  | S fuel' =>
      if start <? len part then
        let end_ := Z.min (len part) (start + maxLen cfg) in
        let piece := slice part start end_ in
        if end_ >=? len part then Some [piece]
        else
          match window_loop fuel' part (Z.max 0 (end_ - overlap cfg)) with
          | Some more => Some (piece :: more)
          | None => None
          end
      else Some []
  end.

(** One round of [for (const part of parts)]. *)
Definition chunk_part (fuel : nat) (part : jsstring) : option (list jsstring) :=
  if len part <=? maxLen cfg then Some [part]
  else window_loop fuel part 0.

Fixpoint chunk_parts (fuel : nat) (parts : list jsstring)
  : option (list jsstring) :=
  match parts with
  | [] => Some []
  | part :: rest =>
      match chunk_part fuel part with
      | Some cs =>
          match chunk_parts fuel rest with
          | Some more => Some (cs ++ more)
          | None => None
          end
      | None => None
      end
  end.

(** The paragraphs: split on blank lines, trimmed, empty ones dropped. *)
Definition paragraphs (text : jsstring) : list jsstring :=
  filter (fun s => 0 <? len s)
         (map trim (split_blank_lines (replace_crlf text))).

Definition chunkText (fuel : nat) (text : jsstring) : option (list jsstring) :=
  chunk_parts fuel (paragraphs text).

End Chunk.

End Chunker.
Import Chunker.

(** ** JavaScript numbers and JSON values *)

Module Js.

Definition NaN : float := nan.

(** [x === 0] on numbers: IEEE equality, so [-0 === 0] and [NaN !== 0]. *)
Definition is_zero (x : float) : bool := PrimFloat.eqb x 0%float.

(** [Number.isInteger(x)], with the integer. *)
Definition to_integer (x : float) : option Z :=
  match Prim2SF x with
  | S754_zero _ => Some 0
  | S754_finite s m e =>
      if 0 <=? e then Some (cond_Zopp s (Z.pos m * 2 ^ e))
      else
        let d := 2 ^ (- e) in
        if Z.pos m mod d =? 0 then Some (cond_Zopp s (Z.pos m / d)) else None
  | _ => None
  end.

#[local] Set Warnings "-register-all".
Inductive json :=
| JNull
| JBool (b : bool)
| JNum (x : float)
| JStr (s : jsstring)
| JArr (items : list json)
| JObj (fields : list (jsstring * json)).

(** Own property [key] of an object parsed from JSON: of two members with
    one name the later one stays. *)
Fixpoint obj_lookup (key : jsstring) (fields : list (jsstring * json))
  : option json :=
  match fields with
  | [] => None
  | (k, v) :: rest =>
      match obj_lookup key rest with
      | Some w => Some w
      | None => if jseqb k key then Some v else None
      end
  end.

(** [v?.key] for a name that no array or string has; [None] is [undefined]. *)
Definition get (key : string) (v : option json) : option json :=
  match v with
  | Some (JObj fields) => obj_lookup (str key) fields
  | _ => None
  end.

(** [v?.[0]] *)
Definition get0 (v : option json) : option json :=
  match v with
  | Some (JArr (x :: _)) => Some x
  | Some (JStr (c :: _)) => Some (JStr [c])
  | Some (JObj fields) => obj_lookup (str "0") fields
  | _ => None
  end.

(** The built-in functions that the server calls and the model leaves
    open: [JSON.parse] ([None] when it throws), [JSON.stringify], and the
    conversion to a number of a value that is no number, boolean or null. *)
Record Builtins := {
  JSON_parse : jsstring -> option json;
  JSON_stringify : json -> jsstring;
  ToNumber_other : json -> float
}.

(** The conversion that [*] applies to an operand. *)
Definition ToNumber (js : Builtins) (v : json) : float :=
  match v with
  | JNum x => x
  | JNull => 0%float
  | JBool b => if b then 1%float else 0%float
  | _ => ToNumber_other js v
  end.

End Js.
Import Js.

(** ** Cosine similarity *)

Module Cosine.

Local Open Scope float_scope.

(** The loop of [dot] from index [i] on, with the running sum [s]; an
    index past the end of [b] reads [undefined], and the product is NaN. *)
Fixpoint dot_loop (s : float) (a b : list float) : float :=
  match a with
  | [] => s
  | x :: a' => dot_loop (s + x * hd NaN b) a' (tl b)
  end.

Definition dot (a b : list float) : float := dot_loop 0 a b.

Definition norm (a : list float) : float := PrimFloat.sqrt (dot a a).

Definition cosineSim (a b : list float) : float :=
  let denom := norm a * norm b in
  if is_zero denom then 0 else dot a b / denom.

End Cosine.
Import Cosine.

(** ** The vector store and the retriever *)

Module Store.

(** A row of the table [rag_chunks]. *)
Record Row := {
  id : Z;
  source : jsstring;
  chunk_index : Z;
  content : jsstring;
  embedding_json : jsstring;
  created_at : Z
}.

(** The values bound by [insertStmt.run]; [id] is assigned by the table. *)
Record NewRow := {
  new_source : jsstring;
  new_chunk_index : Z;
  new_content : jsstring;
  new_embedding_json : jsstring;
  new_created_at : Z
}.

(** The table: its rows in [id] order and the AUTOINCREMENT counter. *)
Record Table := {
  rows : list Row;
  last_id : Z
}.

Definition insert_row (t : Table) (r : NewRow) : Table :=
  let i := last_id t + 1 in
  {| rows := rows t ++
             [{| id := i;
                 source := new_source r;
                 chunk_index := new_chunk_index r;
                 content := new_content r;
                 embedding_json := new_embedding_json r;
                 created_at := new_created_at r |}];
     last_id := i |}.

End Store.
Import Store.

Module Retriever.

Local Open Scope float_scope.

Record Scored := { row : Row; score : float }.

Section Sort.
Context {A : Type}.
Variable comparefn : A -> A -> float.

(** [Array.prototype.sort(comparefn)] is a stable sort; an element moves
    behind another only when [comparefn] of the two is positive (a NaN
    counts as [+0]).  Modelled as the stable insertion sort. *)
Fixpoint insert_sorted (x : A) (l : list A) : list A :=
  match l with
  | [] => [x]
  | y :: l' =>
      if 0 <? comparefn x y then y :: insert_sorted x l' else x :: l
  end.

Fixpoint sort (l : list A) : list A :=
  match l with
  | [] => []
  | x :: l' => insert_sorted x (sort l')
  end.
End Sort.

Section Retrieve.
Variable js : Builtins.

(** The callback of [rows.map]. *)
Definition score_row (queryEmbedding : list json) (r : Row) : Scored :=
  let vec := JSON_parse js (embedding_json r) in
  let score :=
    match vec with
    | Some (JArr items) =>
        cosineSim (map (ToNumber js) queryEmbedding) (map (ToNumber js) items)
    | _ => -1
    end in
  {| row := r; score := score |}.

(** The value of [scored] in the [/chat] handler. *)
Definition retrieve (queryEmbedding : list json) (rows : list Row) (topK : Z)
  : list Scored :=
  slice
    (sort (fun a b => score b - score a)
       (filter (fun x => 0 <=? score x)
          (map (score_row queryEmbedding) rows)))
    0 topK.
End Retrieve.

End Retriever.
Import Retriever.


(** ** Request schemas *)

Module Schema.

Local Open Scope float_scope.

Record Message := { role : jsstring; content : jsstring }.

(** [parsed.data] of [ChatRequestSchema]; [None] is an absent member. *)
Record ChatRequest := {
  messages : list Message;
  temperature : option float;
  max_tokens : option Z;
  use_rag : option bool;
  top_k : option Z
}.

(** [parsed.data] of [RagIngestSchema]. *)
Record IngestRequest := { ingest_source : jsstring; ingest_text : jsstring }.

(** [z.object({ role: z.enum(["user", "assistant"]), content: z.string().min(1) })] *)
Definition parse_message (v : json) : option Message :=
  match v with
  | JObj fields =>
      match obj_lookup (str "role") fields, obj_lookup (str "content") fields with
      | Some (JStr r), Some (JStr c) =>
          if (jseqb r (str "user") || jseqb r (str "assistant"))
             && (1 <=? len c)%Z
          then Some {| role := r; content := c |}
          else None
      | _, _ => None
      end
  | _ => None
  end.

(** [z.array(...)]: every element has to parse; any length is accepted. *)
Fixpoint parse_array {A : Type} (parse : json -> option A) (items : list json)
  : option (list A) :=
  match items with
  | [] => Some []
  | v :: rest =>
      match parse v, parse_array parse rest with
      | Some a, Some more => Some (a :: more)
      | _, _ => None
      end
  end.

(** [.optional()]: an absent member is accepted as it is. *)
Definition optional {A : Type} (parse : json -> option A) (v : option json)
  : option (option A) :=
  match v with
  | None => Some None
  | Some j =>
      match parse j with
      | Some a => Some (Some a)
      | None => None
      end
  end.

(** [z.number().min(lo).max(hi)] *)
Definition number_between (lo hi : float) (v : json) : option float :=
  match v with
  | JNum x => if (lo <=? x) && (x <=? hi) then Some x else None
  | _ => None
  end.

(** [z.number().int().positive().max(hi)] *)
Definition positive_int_upto (hi : Z) (v : json) : option Z :=
  match v with
  | JNum x =>
      match to_integer x with
      | Some n => if ((0 <? n) && (n <=? hi))%Z then Some n else None
      | None => None
      end
  | _ => None
  end.

(** [z.boolean()] *)
Definition boolean (v : json) : option bool :=
  match v with
  | JBool b => Some b
  | _ => None
  end.

(** [z.string().min(1)] *)
Definition nonempty_string (v : option json) : option jsstring :=
  match v with
  | Some (JStr s) => if (1 <=? len s)%Z then Some s else None
  | _ => None
  end.

(** [ChatRequestSchema.safeParse(body)]; [None] when [success] is false. *)
Definition ChatRequestSchema (body : json) : option ChatRequest :=
  match body with
  | JObj fields =>
      match obj_lookup (str "messages") fields with
      | Some (JArr items) =>
          match parse_array parse_message items,
                optional (number_between 0 2) (obj_lookup (str "temperature") fields),
                optional (positive_int_upto 8192) (obj_lookup (str "max_tokens") fields),
                optional boolean (obj_lookup (str "use_rag") fields),
                optional (positive_int_upto 10) (obj_lookup (str "top_k") fields)
          with
          | Some ms, Some t, Some mt, Some ur, Some k =>
              Some {| messages := ms; temperature := t; max_tokens := mt;
                      use_rag := ur; top_k := k |}
          | _, _, _, _, _ => None
          end
      | _ => None
      end
  | _ => None
  end.

(** [RagIngestSchema.safeParse(body)] *)
Definition RagIngestSchema (body : json) : option IngestRequest :=
  match body with
  | JObj fields =>
      match nonempty_string (obj_lookup (str "source") fields),
            nonempty_string (obj_lookup (str "text") fields)
      with
      | Some s, Some t => Some {| ingest_source := s; ingest_text := t |}
      | _, _ => None
      end
  | _ => None
  end.

End Schema.
Import Schema.

(** ** The world around a request *)

Module World.

(** What a handler can throw. *)
Inductive Exn :=
| Error (message : jsstring)   (* [new Error(message)] *)
| TypeError                    (* [fetch] failed on the network *)
| AbortError                   (* [fetch] aborted through its signal *)
| SyntaxError                  (* [res.json()] on a body that is no JSON *)
| SqliteError.                 (* a statement that SQLite does not carry out *)

(** A response of [fetch]: [res.ok], [res.status], [await res.text()] and
    [await res.json()] ([None]: it throws). *)
Record FetchResponse := {
  res_ok : bool;
  res_status : Z;
  res_text : jsstring;
  res_json : option json
}.

Inductive Settled :=
| Fulfilled (res : FetchResponse)
| Rejected (e : Exn).

(** The completion provider settles the call after [delay_ms]. *)
Record TimedReply := { delay_ms : Z; outcome : Settled }.

Record EmbeddingRequest := {
  emb_url : jsstring;
  emb_authorization : jsstring;
  emb_model : jsstring;
  emb_input : jsstring
}.

Record CompletionRequest := {
  cmp_url : jsstring;
  cmp_authorization : jsstring;
  cmp_model : jsstring;
  cmp_stream : bool;
  cmp_temperature : option float;
  cmp_max_tokens : option Z;
  cmp_messages : list Message
}.

(** [process.env]; a numeric variable stands for the integer it denotes. *)
Record Env := {
  DEEPSEEK_API_KEY : option jsstring;
  DEEPSEEK_BASE_URL : option jsstring;
  DEEPSEEK_MODEL : option jsstring;
  DEEPSEEK_TIMEOUT_MS : option Z;
  EMBEDDING_BASE_URL : option jsstring;
  EMBEDDING_MODEL : option jsstring;
  RAG_TOP_K : option Z;
  SYSTEM_PROMPT : option jsstring;
  chunking : Chunker.Settings
}.

(** Everything a handler reads from outside during one request.  The
    embedding provider answers its [n]-th call of the request (counted over
    the outbound calls made so far); the embedding [fetch] carries no signal
    and is taken to settle. *)
Record World := {
  env : Env;
  builtins : Builtins;
  randomUUID : jsstring;
  Date_now : Z;
  embedding_provider : nat -> EmbeddingRequest -> Settled;
  completion_provider : CompletionRequest -> TimedReply;
  sqlite_accepts : Table -> NewRow -> bool
}.

(** Outbound traffic of a request, oldest first. *)
Inductive Call :=
| EmbeddingCall (req : EmbeddingRequest)
| CompletionCall (req : CompletionRequest)
| AbortSignal.                 (* [controller.abort()] on the pending call *)

Record State := { table : Table; calls : list Call }.

Inductive Outcome (A : Type) :=
| Returned (a : A)
| Threw (e : Exn).
Arguments Returned {A} a.
Arguments Threw {A} e.

(** A step of a handler: it may change the state and may throw. *)
Definition M (A : Type) : Type := State -> State * Outcome A.

Definition ret {A} (a : A) : M A := fun st => (st, Returned a).

Definition throw {A} (e : Exn) : M A := fun st => (st, Threw e).

Definition bind {A B} (m : M A) (k : A -> M B) : M B :=
  fun st =>
    match m st with
    | (st', Returned a) => k a st'
    | (st', Threw e) => (st', Threw e)
    end.

(** [try { m } catch (err) { h err }] *)
Definition try_catch {A} (m : M A) (h : Exn -> M A) : M A :=
  fun st =>
    match m st with
    | (st', Returned a) => (st', Returned a)
    | (st', Threw e) => h e st'
    end.

Definition record_call (c : Call) : M unit :=
  fun st => ({| table := table st; calls := calls st ++ [c] |}, Returned tt).

Definition settle {A} (s : Settled) (k : FetchResponse -> M A) : M A :=
  match s with
  | Fulfilled res => k res
  | Rejected e => throw e
  end.

(** [db.transaction(fn)(args)]: the table is rolled back when [fn] throws. *)
Definition transaction {A} (m : M A) : M A :=
  fun st =>
    match m st with
    | (st', Returned a) => (st', Returned a)
    | (st', Threw e) => ({| table := table st; calls := calls st' |}, Threw e)
    end.

End World.
Import World.

Declare Scope handler_scope.
Delimit Scope handler_scope with handler.
Notation "x <- m ;; k" := (bind m (fun x => k))
  (at level 61, m at next level, right associativity) : handler_scope.
Notation "m ;;; k" := (bind m (fun _ => k))
  (at level 61, right associativity) : handler_scope.

(** ** The server *)

Module Server.

Local Open Scope handler_scope.

Definition DEFAULT_SYSTEM_PROMPT : jsstring :=
  str "You are a helpful assistant. Answer clearly and concisely. If you are unsure, say you are unsure.".

Record Citation := {
  cite_id : Z;
  cite_source : jsstring;
  cite_chunkIndex : Z;
  cite_score : float
}.

(** The JSON body of a reply. *)
Inductive Body :=
| Failure (code message requestId : jsstring)
| Ingested (requestId : jsstring) (chunks : Z)
| Answer (message requestId model : jsstring) (latencyMs : Z)
         (citations : list Citation).

(** [res.status(status).json(body)]; [res.json(body)] has status 200. *)
Record Reply := { status : Z; body : Body }.

Definition or_default {A} (v : option A) (d : A) : A :=
  match v with Some a => a | None => d end.

Definition is_quote (c : ascii) : bool :=
  Ascii.eqb c "'"%char || Ascii.eqb c (ascii_of_nat 34).

Definition drop_first_if (p : ascii -> bool) (s : jsstring) : jsstring :=
  match s with
  | c :: rest => if p c then rest else s
  | [] => []
  end.

(** [s.replace(/^['"]|['"]$/g, "")] *)
Definition strip_quotes (s : jsstring) : jsstring :=
  rev (drop_first_if is_quote (rev (drop_first_if is_quote s))).

Fixpoint drop_while (p : ascii -> bool) (s : jsstring) : jsstring :=
  match s with
  | c :: rest => if p c then drop_while p rest else s
  | [] => []
  end.

(** [s.replace(/\/+$/, "")] *)
Definition strip_trailing_slashes (s : jsstring) : jsstring :=
  rev (drop_while (fun c => Ascii.eqb c "/"%char) (rev s)).

Section Handlers.
Variable W : World.

(** [process.env.DEEPSEEK_API_KEY?.trim().replace(/^['"]|['"]$/g, "")];
    [None] when [!apiKey] holds. *)
Definition apiKey : option jsstring :=
  match DEEPSEEK_API_KEY (env W) with
  | Some k =>
      match strip_quotes (trim k) with
      | [] => None
      | key => Some key
      end
  | None => None
  end.

Definition baseUrl : jsstring :=
  strip_trailing_slashes
    (or_default (DEEPSEEK_BASE_URL (env W)) (str "https://api.deepseek.com")).

Definition model : jsstring :=
  or_default (DEEPSEEK_MODEL (env W)) (str "deepseek-chat").

Definition failure (st : Z) (code : string) (message : jsstring) : Reply :=
  {| status := st;
     body := Failure (str code) message (randomUUID W) |}.

(** [try { m } catch (err) { return res.status(500).json(...) }]: the
    block that wraps the body of both handlers. *)
Definition handle (m : M Reply) (st : State) : State * Reply :=
  match m st with
  | (st', Returned reply) => (st', reply)
  | (st', Threw err) =>
      (st', failure 500 "INTERNAL_ERROR" (str "Internal server error"))
  end.

(** [await fetch(`${embeddingBaseUrl}/embeddings`, ...)] *)
Definition fetch_embeddings (req : EmbeddingRequest) : M FetchResponse :=
  fun st =>
    let n := List.length (calls st) in
    (record_call (EmbeddingCall req) ;;;
     settle (embedding_provider W n req) ret) st.

Definition embedText (key base input : jsstring) : M (list json) :=
  let embeddingBaseUrl :=
    strip_trailing_slashes (or_default (EMBEDDING_BASE_URL (env W)) base) in
  let embeddingModel :=
    or_default (EMBEDDING_MODEL (env W)) (str "BAAI/bge-m3") in
  res <- fetch_embeddings
           {| emb_url := embeddingBaseUrl ++ str "/embeddings";
              emb_authorization := str "Bearer " ++ key;
              emb_model := embeddingModel;
              emb_input := input |} ;;
  if negb (res_ok res) then
    throw (Error (or_else (res_text res)
                    (str "Embedding upstream HTTP " ++ of_Z (res_status res))))
  else
    match res_json res with
    | None => throw SyntaxError
    | Some data =>
        match get "embedding" (get0 (get "data" (Some data))) with
        | Some (JArr (JNum x :: rest)) => ret (JNum x :: rest)
        | _ => throw (Error (str "Embedding upstream returned an invalid response"))
        end
    end.

(** The [for] loop of [/rag/ingest] from index [i] on. *)
Fixpoint embed_chunks (key src : jsstring) (i : Z) (chunks : list jsstring)
  : M (list NewRow) :=
  match chunks with
  | [] => ret []
  | content :: rest =>
      embedding <- embedText key baseUrl content ;;
      more <- embed_chunks key src (i + 1) rest ;;
      ret ({| new_source := src;
              new_chunk_index := i;
              new_content := content;
              new_embedding_json := JSON_stringify (builtins W) (JArr embedding);
              new_created_at := Date_now W |} :: more)
  end.

(** [insertStmt.run(...)] *)
Definition run_insert (r : NewRow) : M unit :=
  fun st =>
    if sqlite_accepts W (table st) r
    then ({| table := insert_row (table st) r; calls := calls st |}, Returned tt)
    else (st, Threw SqliteError).

(** The body of the function given to [db.transaction]. *)
Fixpoint insert_all (count : Z) (rows : list NewRow) : M Z :=
  match rows with
  | [] => ret count
  | r :: rest => run_insert r ;;; insert_all (count + 1) rest
  end.

Definition inserted (rows : list NewRow) : M Z :=
  transaction (insert_all 0 rows).

(** [app.post("/rag/ingest", ...)]; [None]: [chunkText] has not returned
    within the fuel. *)
Definition rag_ingest (fuel : nat) (req_body : json) (st : State)
  : option (State * Reply) :=
  match RagIngestSchema req_body with
  | None =>
      Some (st, failure 400 "BAD_REQUEST" (str "Invalid request body"))
  | Some parsed =>
      match apiKey with
      | None =>
          Some (st, failure 500 "MISSING_API_KEY" (str "Missing DEEPSEEK_API_KEY"))
      | Some key =>
          match chunkText (chunking (env W)) fuel (ingest_text parsed) with
          | None => None
          | Some chunks =>
              Some (handle
                      (rows <- embed_chunks key (ingest_source parsed) 0 chunks ;;
                       count <- inserted rows ;;
                       ret {| status := 200;
                              body := Ingested (randomUUID W) count |})
                      st)
          end
      end
  end.

(** [[...messages].reverse().find((m) => m.role === "user")?.content] *)
Definition lastUser (ms : list Message) : option jsstring :=
  option_map content
    (find (fun m => jseqb (role m) (str "user")) (rev ms)).

Definition citation_of (x : Scored) : Citation :=
  {| cite_id := id (row x);
     cite_source := source (row x);
     cite_chunkIndex := chunk_index (row x);
     cite_score := score x |}.

(** [`Source: ${x.row.source}#${x.row.chunk_index}\n${x.row.content}`] *)
Definition context_block (x : Scored) : jsstring :=
  str "Source: " ++ source (row x) ++ str "#" ++ of_Z (chunk_index (row x))
    ++ [LF] ++ Store.content (row x).

Definition select_all : M (list Row) :=
  fun st => (st, Returned (rows (table st))).

(** The [if (useRag)] block: the values of [ragContext] and [citations]
    after it. *)
Definition retrieval (key : jsstring) (useRag : bool) (topK : Z)
           (ms : list Message) : M (jsstring * list Citation) :=
  if useRag then
    match lastUser ms with
    | Some (c :: q) =>
        queryEmbedding <- embedText key baseUrl (c :: q) ;;
        rows <- select_all ;;
        let scored := retrieve (builtins W) queryEmbedding rows topK in
        ret (join [LF; LF] (map context_block scored),
             map citation_of scored)
    | _ => ret ([], [])
    end
  else ret ([], []).

(** The timer of [setTimeout(..., timeoutMs)]: a delay below 1 is 1. *)
Definition timeoutMs : Z :=
  Z.max 1 (or_default (DEEPSEEK_TIMEOUT_MS (env W)) 20000).

(** [await fetch(`${baseUrl}/chat/completions`, { ..., signal })], with
    the time it took.  When the timer fires before the provider settles
    the call, [controller.abort()] rejects the pending [fetch]. *)
Definition fetch_completions (req : CompletionRequest) : M (FetchResponse * Z) :=
  record_call (CompletionCall req) ;;;
  let reply := completion_provider W req in
  if timeoutMs <? delay_ms reply
  then record_call AbortSignal ;;; throw AbortError
  else settle (outcome reply) (fun res => ret (res, delay_ms reply)).

Definition context_prefix : jsstring :=
  str "Use the following context to answer the user. If the context is insufficient, say you are unsure."
    ++ [LF; LF].

(** The [messages] member of the completion request. *)
Definition prompt_messages (useRag : bool) (ragContext : jsstring)
           (ms : list Message) : list Message :=
  {| role := str "system";
     content := or_default (SYSTEM_PROMPT (env W)) DEFAULT_SYSTEM_PROMPT |}
    :: (if useRag && (0 <? len ragContext)
        then [{| role := str "system";
                 content := context_prefix ++ ragContext |}]
        else [])
    ++ ms.

(** [app.post("/chat", ...)] *)
Definition chat (req_body : json) (st : State) : State * Reply :=
  match ChatRequestSchema req_body with
  | None => (st, failure 400 "BAD_REQUEST" (str "Invalid request body"))
  | Some parsed =>
      match apiKey with
      | None =>
          (st, failure 500 "MISSING_API_KEY" (str "Missing DEEPSEEK_API_KEY"))
      | Some key =>
          let useRag :=
            match use_rag parsed with Some true => true | _ => false end in
          let topK :=
            or_default (top_k parsed) (or_default (RAG_TOP_K (env W)) 4) in
          handle
            (rag <- retrieval key useRag topK (messages parsed) ;;
             let '(ragContext, citations) := rag in
             fetched <- fetch_completions
               {| cmp_url := baseUrl ++ str "/chat/completions";
                  cmp_authorization := str "Bearer " ++ key;
                  cmp_model := model;
                  cmp_stream := false;
                  cmp_temperature := temperature parsed;
                  cmp_max_tokens := max_tokens parsed;
                  cmp_messages :=
                    prompt_messages useRag ragContext (messages parsed) |} ;;
             let '(upstreamRes, latencyMs) := fetched in
             if negb (res_ok upstreamRes) then
               ret (failure 502 "UPSTREAM_ERROR"
                      (or_else (res_text upstreamRes)
                         (str "Upstream HTTP " ++ of_Z (res_status upstreamRes))))
             else
               match res_json upstreamRes with
               | None => throw SyntaxError
               | Some data =>
                   match get "content"
                           (get "message" (get0 (get "choices" (Some data))))
                   with
                   | Some (JStr (c :: message)) =>
                       ret {| status := 200;
                              body := Answer (c :: message) (randomUUID W) model
                                        latencyMs citations |}
                   | _ =>
                       ret (failure 502 "BAD_UPSTREAM_RESPONSE"
                              (str "Upstream returned an invalid response"))
                   end
               end)
            st
      end
  end.

End Handlers.

End Server.
Import Server.

(** * Properties *)

(** ** Strings: [trim], [replace] and [split] *)

Module StringFacts.

(** No run of two line feeds. *)
Fixpoint blank_line_free (s : jsstring) : bool :=
  match s with
  | c :: rest =>
      match rest with
      | d :: _ => negb (is_LF c && is_LF d) && blank_line_free rest
      | [] => true
      end
  | [] => true
  end.

(** The last code unit, if any, is no white space. *)
Fixpoint ends_visible (s : jsstring) : bool :=
  match s with
  | [] => true
  | c :: rest =>
      match rest with
      | [] => negb (is_space c)
      | _ :: _ => ends_visible rest
      end
  end.

Definition starts_with_LF (s : jsstring) : bool :=
  match s with
  | d :: _ => is_LF d
  | [] => false
  end.

Definition blank (s : jsstring) : Prop := Forall (fun c => is_space c = true) s.

Lemma LF_is_space c : is_LF c = true -> is_space c = true.
Proof.
  unfold is_LF. intros H. apply Ascii.eqb_eq in H. subst c. reflexivity.
Qed.

Lemma trimStart_split s :
  exists w, s = w ++ trimStart s /\ blank w.
Proof.
  induction s as [|c s IH]; simpl.
  - exists []. split; [reflexivity | constructor].
  - destruct (is_space c) eqn:Hc.
    + destruct IH as (w & Hs & Hw). exists (c :: w). split.
      * simpl. now rewrite <- Hs.
      * now constructor.
    + exists []. split; [reflexivity | constructor].
Qed.

Lemma trimStart_head s c r : trimStart s = c :: r -> is_space c = false.
Proof.
  induction s as [|d s IH]; simpl; [discriminate|].
  destruct (is_space d) eqn:Hd; [exact IH|].
  intros H. injection H as -> _. exact Hd.
Qed.

Lemma trimStart_visible c r : is_space c = false -> trimStart (c :: r) = c :: r.
Proof. intros H. simpl. now rewrite H. Qed.

Lemma trimStart_blank_app w s : blank w -> trimStart (w ++ s) = trimStart s.
Proof.
  induction 1 as [|c w Hc _ IH]; simpl; [reflexivity|]. now rewrite Hc.
Qed.

Lemma blank_rev w : blank w -> blank (rev w).
Proof. unfold blank. intros H. now apply Forall_rev. Qed.

Lemma ends_visible_snoc x c : ends_visible (x ++ [c]) = negb (is_space c).
Proof.
  induction x as [|d x IH]; simpl; [reflexivity|].
  destruct (x ++ [c]) eqn:E; [now destruct x | exact IH].
Qed.

Lemma ends_visible_tail c u : u <> [] -> ends_visible (c :: u) = ends_visible u.
Proof. destruct u; [congruence | reflexivity]. Qed.

(** A string is its [trim] between two runs of white space; the [trim]
    neither starts nor ends with white space. *)
Lemma trim_split s :
  exists w1 w2,
    s = w1 ++ trim s ++ w2 /\ blank w1 /\ blank w2 /\
    trimStart (trim s) = trim s /\ ends_visible (trim s) = true.
Proof.
  unfold trim, trimEnd.
  destruct (trimStart_split s) as (w1 & Hs & Hw1).
  destruct (trimStart_split (rev (trimStart s))) as (w & Hr & Hw).
  set (s' := trimStart s) in *. set (r := trimStart (rev s')) in *.
  assert (Hs' : s' = rev r ++ rev w).
  { rewrite <- (rev_involutive s'), Hr, rev_app_distr. reflexivity. }
  exists w1, (rev w). repeat split.
  - now rewrite <- Hs'.
  - exact Hw1.
  - now apply blank_rev.
  - destruct (rev r) as [|c0 x] eqn:Er; [reflexivity|].
    apply trimStart_visible. apply (trimStart_head s c0 (x ++ rev w)).
    fold s'. rewrite Hs'. reflexivity.
  - destruct r as [|c r'] eqn:Er; [reflexivity|].
    simpl. rewrite ends_visible_snoc.
    unfold r in Er. apply trimStart_head in Er. now rewrite Er.
Qed.

Lemma trim_blank w : blank w -> trim w = [].
Proof.
  intros H. unfold trim, trimEnd.
  rewrite <- (app_nil_r w) at 1. rewrite trimStart_blank_app by exact H.
  reflexivity.
Qed.

Lemma ends_visible_rev t :
  t <> [] -> ends_visible t = true ->
  exists c x, rev t = c :: x /\ is_space c = false.
Proof.
  intros Hne He. destruct (rev t) as [|c x] eqn:Er.
  - apply (f_equal (@rev _)) in Er. rewrite rev_involutive in Er. now subst.
  - exists c, x. split; [reflexivity|].
    assert (Ht : t = rev x ++ [c]).
    { rewrite <- (rev_involutive t), Er. reflexivity. }
    rewrite Ht, ends_visible_snoc in He.
    now destruct (is_space c).
Qed.

(** Trailing white space is trimmed away from a string with visible ends. *)
Lemma trim_visible_app t w :
  t <> [] -> trimStart t = t -> ends_visible t = true -> blank w ->
  trim (t ++ w) = t.
Proof.
  intros Hne Hs He Hw. unfold trim, trimEnd.
  destruct t as [|c0 x] eqn:Et; [congruence|].
  assert (Hc0 : is_space c0 = false) by (eapply trimStart_head; exact Hs).
  rewrite <- Et in *.
  replace (trimStart (t ++ w)) with (t ++ w)
    by (rewrite Et; simpl; now rewrite Hc0).
  rewrite rev_app_distr, trimStart_blank_app by now apply blank_rev.
  destruct (ends_visible_rev t) as (c & y & Er & Hc); [congruence | exact He |].
  rewrite Er, trimStart_visible by exact Hc.
  rewrite <- Er. apply rev_involutive.
Qed.

(** The equation of [split_from] with the look-ahead read on the rest. *)
Lemma split_from_cons b c rest :
  split_from b (c :: rest) =
  if is_LF c then
    if b then split_from true rest
    else if starts_with_LF rest then [] :: split_from true rest
         else cons_head c (split_from false rest)
  else cons_head c (split_from false rest).
Proof.
  simpl. destruct (is_LF c); [|reflexivity].
  destruct b; [reflexivity|].
  destruct rest as [|d rest']; [reflexivity|].
  simpl. destruct (is_LF d); reflexivity.
Qed.

Lemma split_from_nonempty b s : split_from b s <> [].
Proof.
  revert b. induction s as [|c s IH]; intros b; [discriminate|].
  rewrite split_from_cons.
  assert (Hc : forall ps, cons_head c ps <> []) by (now destruct ps).
  destruct (is_LF c); [|apply Hc].
  destruct b; [apply IH|].
  destruct (starts_with_LF s); [discriminate | apply Hc].
Qed.

(** What [paragraphs] keeps of a list of parts. *)
Definition kept (parts : list jsstring) : list jsstring :=
  filter (fun s => 0 <? len s) (map trim parts).

Lemma trim_space_cons c p : is_space c = true -> trim (c :: p) = trim p.
Proof. intros Hc. unfold trim. simpl. now rewrite Hc. Qed.

Lemma kept_cons_head c parts :
  is_space c = true -> parts <> [] -> kept (cons_head c parts) = kept parts.
Proof.
  intros Hc Hne. destruct parts as [|p ps]; [congruence|].
  unfold kept. simpl map. now rewrite (trim_space_cons c p Hc).
Qed.

Lemma kept_blank parts : Forall blank parts -> kept parts = [].
Proof.
  induction 1 as [|p ps Hp _ IH]; [reflexivity|].
  unfold kept in *. simpl. rewrite (trim_blank p Hp). exact IH.
Qed.

Lemma blank_cons_head c parts :
  is_space c = true -> Forall blank parts -> Forall blank (cons_head c parts).
Proof.
  intros Hc H. destruct H as [|p ps Hp Hps]; simpl.
  - repeat constructor. exact Hc.
  - constructor; [now constructor | exact Hps].
Qed.

Lemma split_blank w : blank w -> forall b, Forall blank (split_from b w).
Proof.
  induction 1 as [|c w Hc _ IH]; intros b.
  - repeat constructor.
  - rewrite split_from_cons.
    destruct (is_LF c); [|now apply blank_cons_head].
    destruct b; [apply IH|].
    destruct (starts_with_LF w).
    + constructor; [constructor | apply IH].
    + now apply blank_cons_head.
Qed.

Lemma visible_not_LF c : is_space c = false -> is_LF c = false.
Proof.
  intros H. destruct (is_LF c) eqn:E; [|reflexivity].
  apply LF_is_space in E. congruence.
Qed.

(** A string without blank lines and with a visible end stays in one part,
    whatever white space follows it. *)
Lemma split_visible u w2 :
  blank_line_free u = true -> ends_visible u = true -> blank w2 ->
  exists w' rest,
    split_from false (u ++ w2) = (u ++ w') :: rest /\ blank w' /\ Forall blank rest.
Proof.
  intros Hf He Hw. induction u as [|c u IH].
  - simpl. pose proof (split_blank w2 Hw false) as Hall.
    destruct (split_from false w2) as [|w' rest] eqn:E.
    + now apply split_from_nonempty in E.
    + exists w', rest. inversion Hall; subst. auto.
  - assert (Hstep : split_from false ((c :: u) ++ w2)
                    = cons_head c (split_from false (u ++ w2))).
    { simpl app. rewrite split_from_cons.
      destruct (is_LF c) eqn:Hc; [|reflexivity].
      destruct u as [|d u'].
      - simpl in He. rewrite (LF_is_space c Hc) in He. discriminate.
      - simpl in Hf. rewrite Hc in Hf. simpl in Hf.
        apply andb_prop in Hf as [Hd _]. apply negb_true_iff in Hd.
        simpl. now rewrite Hd. }
    assert (Hf' : blank_line_free u = true).
    { destruct u as [|d u']; [reflexivity|].
      simpl in Hf. now apply andb_prop in Hf as [_ Hf]. }
    assert (He' : ends_visible u = true).
    { destruct u as [|d u']; [reflexivity|].
      now rewrite ends_visible_tail in He by discriminate. }
    destruct (IH Hf' He') as (w' & rest & Hsp & Hw' & Hrest).
    exists w', rest. rewrite Hstep, Hsp. auto.
Qed.

(** White space around a blank-line-free text adds no paragraph. *)
Lemma kept_single w1 t w2 b :
  t <> [] -> trimStart t = t -> ends_visible t = true ->
  blank_line_free t = true -> blank w1 -> blank w2 ->
  kept (split_from b (w1 ++ t ++ w2)) = [t].
Proof.
  intros Hne Hs He Hf Hw1 Hw2. revert b.
  induction Hw1 as [|c w1 Hc _ IH]; intros b.
  - simpl app.
    destruct (split_visible t w2 Hf He Hw2) as (w' & rest & Hsp & Hw' & Hrest).
    assert (Hb : split_from b (t ++ w2) = split_from false (t ++ w2)).
    { destruct t as [|c0 x]; [congruence|].
      simpl app. rewrite !split_from_cons.
      assert (Hc0 : is_space c0 = false) by (eapply trimStart_head; exact Hs).
      now rewrite (visible_not_LF c0 Hc0). }
    rewrite Hb, Hsp. unfold kept. simpl.
    rewrite (trim_visible_app t w' Hne Hs He Hw').
    fold (kept rest). rewrite (kept_blank rest Hrest).
    destruct t; [congruence | reflexivity].
  - simpl app. rewrite split_from_cons.
    assert (Hk : kept (cons_head c (split_from false (w1 ++ t ++ w2))) = [t]).
    { rewrite kept_cons_head; [apply IH | exact Hc | apply split_from_nonempty]. }
    destruct (is_LF c); [|exact Hk].
    destruct b; [apply IH|].
    destruct (starts_with_LF (w1 ++ t ++ w2)); [|exact Hk].
    unfold kept. simpl. apply IH.
Qed.

Lemma trim_length s : (List.length (trim s) <= List.length s)%nat.
Proof.
  destruct (trim_split s) as (w1 & w2 & Hs & _).
  rewrite Hs at 2. rewrite !length_app. lia.
Qed.

Lemma replace_crlf_length s :
  (List.length (replace_crlf s) <= List.length s)%nat.
Proof.
  assert (H : forall n s, (List.length s <= n)%nat ->
                          (List.length (replace_crlf s) <= List.length s)%nat).
  { induction n as [|n IH]; intros [|c [|d r]] Hn; simpl in *; try lia.
    destruct (is_CR c && is_LF d).
    - simpl. specialize (IH r). lia.
    - simpl. specialize (IH (d :: r)). simpl in IH. lia. }
  now apply (H (List.length s)).
Qed.

End StringFacts.

(** ** The chunker *)

Module ChunkerFacts.
Import StringFacts.

Lemma len_nonneg (s : jsstring) : 0 <= len s.
Proof. unfold len. lia. Qed.

Lemma paragraphs_single text :
  let t := trim (replace_crlf text) in
  t <> [] -> blank_line_free t = true -> paragraphs text = [t].
Proof.
  intros t Hne Hf. unfold paragraphs, split_blank_lines. fold kept.
  destruct (trim_split (replace_crlf text)) as (w1 & w2 & Hs & Hw1 & Hw2 & Ht & He).
  fold t in Hs, Ht, He. rewrite Hs.
  now apply kept_single.
Qed.

Lemma split_from_lengths s :
  forall b, Forall (fun p => (List.length p <= List.length s)%nat) (split_from b s).
Proof.
  induction s as [|c s IH]; intros b.
  - constructor; [simpl; lia | constructor].
  - assert (Hw : forall b', Forall (fun p => (List.length p <= S (List.length s))%nat)
                              (split_from b' s)).
    { intros b'. eapply Forall_impl; [|apply IH]. simpl. lia. }
    assert (Hc : Forall (fun p => (List.length p <= S (List.length s))%nat)
                   (cons_head c (split_from false s))).
    { specialize (IH false). destruct (split_from false s) as [|p ps]; simpl.
      - constructor; [simpl; lia | constructor].
      - inversion IH; subst. constructor; [simpl; lia|].
        eapply Forall_impl; [|eassumption]. simpl. lia. }
    rewrite split_from_cons. simpl List.length.
    destruct (is_LF c); [|exact Hc].
    destruct b; [apply Hw|].
    destruct (starts_with_LF s); [|exact Hc].
    constructor; [simpl; lia | apply Hw].
Qed.

(** No paragraph is empty, and none is longer than the text. *)
Lemma paragraphs_lengths text :
  Forall (fun p => 0 < len p <= len text) (paragraphs text).
Proof.
  unfold paragraphs, split_blank_lines.
  apply Forall_forall. intros p Hin.
  apply filter_In in Hin as [Hin Hpos].
  apply in_map_iff in Hin as (q & <- & Hq).
  pose proof (split_from_lengths (replace_crlf text) false) as Hall.
  rewrite Forall_forall in Hall. specialize (Hall q Hq). cbv beta in Hall.
  pose proof (trim_length q). pose proof (replace_crlf_length text).
  apply Z.ltb_lt in Hpos. unfold len in *. lia.
Qed.

Section Windows.
Variable cfg : Settings.

Lemma window_loop_fuel part :
  forall fuel fuel' start ws,
    (fuel <= fuel')%nat ->
    window_loop cfg fuel part start = Some ws ->
    window_loop cfg fuel' part start = Some ws.
Proof.
  induction fuel as [|fuel IH]; intros fuel' start ws Hle H; [discriminate|].
  destruct fuel' as [|fuel']; [lia|].
  simpl in *.
  destruct (start <? len part); [|exact H].
  destruct (Z.min (len part) (start + maxLen cfg) >=? len part); [exact H|].
  destruct (window_loop cfg fuel part _) as [more|] eqn:E; [|discriminate].
  now rewrite (IH fuel' _ more ltac:(lia) E).
Qed.

(** The loop ends when each round moves [start] forward. *)
Lemma window_loop_terminates part :
  overlap cfg < maxLen cfg ->
  forall fuel start,
    0 <= start -> Z.max 0 (len part - start) < Z.of_nat fuel ->
    exists ws, window_loop cfg fuel part start = Some ws.
Proof.
  intros Hcfg. induction fuel as [|fuel IH]; intros start H0 Hfuel; [lia|].
  simpl.
  destruct (start <? len part) eqn:Hlt; [|eauto].
  apply Z.ltb_lt in Hlt.
  destruct (Z.min (len part) (start + maxLen cfg) >=? len part) eqn:Hend; [eauto|].
  rewrite Z.geb_leb in Hend. apply Z.leb_gt in Hend.
  destruct (IH (Z.max 0 (Z.min (len part) (start + maxLen cfg) - overlap cfg)))
    as (more & ->); [lia | lia | eauto].
Qed.



End Windows.









(** The last [n] code units of [a] are the first [n] of [b]. *)
Definition overlaps_by (n : Z) (a b : jsstring) : Prop :=
  n <= len a /\ n <= len b /\
  skipn (Z.to_nat (len a - n)) a = firstn (Z.to_nat n) b.

(** The [i]-th window over a paragraph: it starts [i] steps of
    [maxLen - overlap] into it and is [maxLen] long, or ends with it. *)
Definition window (cfg : Settings) (p : jsstring) (i : nat) : jsstring :=
  let s := Z.of_nat i * (maxLen cfg - overlap cfg) in
  slice p s (s + maxLen cfg).

Lemma slice_eq (a : jsstring) i j :
  0 <= i <= len a -> 0 <= j ->
  slice a i j = firstn (Z.to_nat (Z.min j (len a) - i)) (skipn (Z.to_nat i) a).
Proof.
  intros Hi Hj. unfold slice, rel_index. fold (len a).
  replace (i <? 0) with false by (symmetry; apply Z.ltb_ge; lia).
  replace (j <? 0) with false by (symmetry; apply Z.ltb_ge; lia).
  now replace (Z.min i (len a)) with i by lia.
Qed.

Lemma slice_len (a : jsstring) i j :
  0 <= i <= len a -> 0 <= j ->
  len (slice a i j) = Z.max 0 (Z.min j (len a) - i).
Proof.
  intros Hi Hj. rewrite slice_eq by assumption.
  unfold len. rewrite length_firstn, length_skipn. unfold len in Hi. lia.
Qed.

Section Overlap.
Variable cfg : Settings.
Hypothesis Hcfg : 0 <= overlap cfg < maxLen cfg.
Variable p : jsstring.

Let step := maxLen cfg - overlap cfg.

Lemma window_eq i :
  window cfg p i = slice p (Z.of_nat i * step) (Z.of_nat i * step + maxLen cfg).
Proof. reflexivity. Qed.

(** The loop pushes the windows in order, up to the first one that reaches
    the end of the paragraph. *)
Lemma window_loop_windows :
  forall fuel k ws,
    Z.of_nat k * step < len p ->
    window_loop cfg fuel p (Z.of_nat k * step) = Some ws ->
    exists n,
      ws = map (window cfg p) (seq k (S n)) /\
      (forall j, (k <= j < k + n)%nat -> Z.of_nat j * step + maxLen cfg < len p) /\
      Z.of_nat (k + n) * step < len p <= Z.of_nat (k + n) * step + maxLen cfg.
Proof.
  induction fuel as [|fuel IH]; intros k ws Hk H; [discriminate|].
  simpl in H.
  replace (Z.of_nat k * step <? len p) with true in H
    by (symmetry; now apply Z.ltb_lt).
  destruct (Z.min (len p) (Z.of_nat k * step + maxLen cfg) >=? len p) eqn:Hend.
  - rewrite Z.geb_leb in Hend. apply Z.leb_le in Hend.
    injection H as <-. exists 0%nat. repeat split.
    + cbn [seq map]. rewrite (window_eq k). f_equal.
      rewrite !slice_eq by (unfold step in *; lia). f_equal. lia.
    + intros j Hj. lia.
    + now rewrite Nat.add_0_r.
    + rewrite Nat.add_0_r. lia.
  - rewrite Z.geb_leb in Hend. apply Z.leb_gt in Hend.
    replace (Z.max 0 (Z.min (len p) (Z.of_nat k * step + maxLen cfg) - overlap cfg))
      with (Z.of_nat (S k) * step) in H by (unfold step in *; lia).
    destruct (window_loop cfg fuel p (Z.of_nat (S k) * step)) as [more|] eqn:E;
      [|discriminate].
    injection H as <-.
    destruct (IH (S k) more) as (n & -> & Hfull & Hlast & Hreach);
      [unfold step in *; lia | exact E |].
    exists (S n). repeat split.
    + cbn [seq map]. rewrite (window_eq k). f_equal.
      rewrite !slice_eq by (unfold step in *; lia). f_equal. lia.
    + intros j Hj. destruct (Nat.eq_dec j k) as [-> | Hne]; [lia|].
      apply Hfull. lia.
    + now replace (k + S n)%nat with (S k + n)%nat by lia.
    + now replace (k + S n)%nat with (S k + n)%nat by lia.
Qed.

Lemma window_len i :
  Z.of_nat i * step < len p ->
  len (window cfg p i) = Z.min (maxLen cfg) (len p - Z.of_nat i * step).
Proof.
  intros Hi. rewrite window_eq.
  rewrite slice_len by (unfold step in *; lia). lia.
Qed.

(** Two windows in a row share exactly [overlap] code units. *)
Lemma windows_overlap i :
  Z.of_nat i * step + maxLen cfg < len p ->
  overlaps_by (overlap cfg) (window cfg p i) (window cfg p (S i)).
Proof.
  intros Hi.
  assert (Hi' : Z.of_nat (S i) * step < len p) by (unfold step in *; lia).
  assert (H0 : 0 <= Z.of_nat i * step) by (unfold step in *; lia).
  unfold overlaps_by. rewrite !window_len by lia.
  split; [unfold step in *; lia|]. split; [unfold step in *; lia|].
  rewrite !window_eq.
  rewrite !slice_eq by (unfold step in *; lia).
  rewrite skipn_firstn_comm, skipn_skipn, firstn_firstn.
  f_equal; [unfold step in *; lia|]. f_equal. unfold step in *. lia.
Qed.

End Overlap.

(** What one paragraph contributes: itself when it fits, else two or more
    windows, each overlapping the next by [overlap]. *)
Definition windows_of (cfg : Settings) (p : jsstring) (ws : list jsstring) : Prop :=
  if len p <=? maxLen cfg then ws = [p]
  else
    exists n,
      ws = map (window cfg p) (seq 0 (S (S n))) /\
      forall i a b,
        nth_error ws i = Some a -> nth_error ws (S i) = Some b ->
        overlaps_by (overlap cfg) a b.

Lemma chunk_part_spec cfg p fuel :
  0 <= overlap cfg < maxLen cfg ->
  0 < len p -> (List.length p < fuel)%nat ->
  exists ws,
    chunk_part cfg fuel p = Some ws /\
    Forall (fun c => 0 < len c <= maxLen cfg) ws /\
    windows_of cfg p ws.
Proof.
  intros Hcfg Hpos Hfuel. unfold chunk_part, windows_of.
  destruct (len p <=? maxLen cfg) eqn:Hfit.
  - apply Z.leb_le in Hfit. exists [p]. repeat split.
    constructor; [lia | constructor].
  - apply Z.leb_gt in Hfit.
    destruct (window_loop_terminates cfg p ltac:(lia) fuel 0) as (ws & Hws);
      [lia | unfold len; lia |].
    destruct (window_loop_windows cfg Hcfg p fuel 0 ws) as (n & -> & Hfull & Hlast & Hreach);
      [simpl; lia | exact Hws |].
    simpl Nat.add in *.
    destruct n as [|n]; [simpl in Hreach; lia|].
    exists (map (window cfg p) (seq 0 (S (S n)))). split; [exact Hws|]. split.
    + apply Forall_forall. intros c Hc.
      apply in_map_iff in Hc as (j & <- & Hj). apply in_seq in Hj.
      assert (Hstart : Z.of_nat j * (maxLen cfg - overlap cfg) < len p).
      { destruct (Nat.eq_dec j (S n)) as [-> | Hne]; [exact Hlast|].
        specialize (Hfull j ltac:(lia)). nia. }
      rewrite window_len by assumption. nia.
    + exists n. split; [reflexivity|].
      intros i a b Ha Hb.
      assert (Hi : (S i < S (S n))%nat).
      { assert (Hs : nth_error (map (window cfg p) (seq 0 (S (S n)))) (S i) <> None)
          by congruence.
        apply nth_error_Some in Hs. now rewrite length_map, length_seq in Hs. }
      rewrite nth_error_map, nth_error_seq in Ha, Hb.
      replace (i <? S (S n))%nat with true in Ha
        by (symmetry; apply Nat.ltb_lt; lia).
      replace (S i <? S (S n))%nat with true in Hb
        by (symmetry; now apply Nat.ltb_lt).
      simpl in Ha, Hb. injection Ha as <-. injection Hb as <-.
      apply windows_overlap; [exact Hcfg|]. apply Hfull. lia.
Qed.

Lemma chunk_parts_spec cfg fuel parts :
  0 <= overlap cfg < maxLen cfg ->
  Forall (fun p => 0 < len p /\ (List.length p < fuel)%nat) parts ->
  exists groups,
    chunk_parts cfg fuel parts = Some (List.concat groups) /\
    Forall (fun c => 0 < len c <= maxLen cfg) (List.concat groups) /\
    Forall2 (windows_of cfg) parts groups.
Proof.
  intros Hcfg. induction 1 as [|p parts [Hpos Hfuel] _ IH].
  - exists []. repeat split; constructor.
  - destruct IH as (groups & Hparts & Hall & Hrel).
    destruct (chunk_part_spec cfg p fuel Hcfg Hpos Hfuel) as (ws & Hws & Hlen & Hwin).
    exists (ws :: groups). simpl. rewrite Hws, Hparts. repeat split.
    + apply Forall_app. now split.
    + now constructor.
Qed.

Lemma chunk_parts_fuel cfg parts :
  forall fuel fuel' chunks,
    (fuel <= fuel')%nat ->
    chunk_parts cfg fuel parts = Some chunks ->
    chunk_parts cfg fuel' parts = Some chunks.
Proof.
  induction parts as [|p parts IH]; intros fuel fuel' chunks Hle H; [exact H|].
  simpl in *.
  destruct (chunk_part cfg fuel p) as [cs|] eqn:Ep; [|discriminate].
  destruct (chunk_parts cfg fuel parts) as [more|] eqn:Er; [|discriminate].
  rewrite (IH fuel fuel' more Hle Er).
  replace (chunk_part cfg fuel' p) with (Some cs); [exact H|].
  unfold chunk_part in *. destruct (len p <=? maxLen cfg).
  - now rewrite Ep.
  - symmetry. exact (window_loop_fuel cfg p fuel fuel' 0 cs Hle Ep).
Qed.

(** The texts of the examples below. *)
Definition two_paragraphs : jsstring := str "a" ++ [LF; LF] ++ str "b".

Definition three_paragraphs : jsstring :=
  repeat "a"%char 300 ++ [LF; LF] ++ repeat "b"%char 300 ++ [LF; LF]
    ++ repeat "c"%char 300.


Definition small_windows : Settings :=
  {| RAG_CHUNK_MAX_CHARS := Some 4; RAG_CHUNK_OVERLAP_CHARS := Some 1 |}.

(** C3, as amended.  A text shorter than the maximum chunk length whose
    trimmed, CRLF-normalised form is not empty and holds no blank line
    (no run of two line feeds) gives exactly one chunk, and the chunk is
    that trimmed, normalised form. *)
Theorem short_text_one_chunk cfg text fuel :
  len text < maxLen cfg ->
  trim (replace_crlf text) <> [] ->
  blank_line_free (trim (replace_crlf text)) = true ->
  chunkText cfg fuel text = Some [trim (replace_crlf text)].
Proof.
  intros Hshort Hne Hfree. unfold chunkText.
  rewrite (paragraphs_single text Hne Hfree). simpl. unfold chunk_part.
  pose proof (trim_length (replace_crlf text)).
  pose proof (replace_crlf_length text).
  replace (len (trim (replace_crlf text)) <=? maxLen cfg) with true;
    [reflexivity|].
  symmetry. apply Z.leb_le. unfold len in *. lia.
Qed.

Lemma short_text_one_chunk_witness :
  chunkText defaults 0 (str "  Hi" ++ [CR; LF] ++ str "there " ++ [LF; LF])
  = Some [str "Hi" ++ [LF] ++ str "there"].
Proof.
  apply (short_text_one_chunk defaults
           (str "  Hi" ++ [CR; LF] ++ str "there " ++ [LF; LF]) 0).
  - reflexivity.
  - discriminate.
  - reflexivity.
Defined.

(** C3, as stated, fails: a short text with a blank line gives two chunks,
    none of them the trimmed input. *)
Lemma short_text_two_chunks :
  two_paragraphs <> [] /\ len two_paragraphs < maxLen defaults /\
  forall fuel,
    chunkText defaults fuel two_paragraphs = Some [str "a"; str "b"] /\
    chunkText defaults fuel two_paragraphs <> Some [trim two_paragraphs].
Proof.
  split; [discriminate|]. split; [reflexivity|].
  intros fuel. split; [reflexivity | discriminate].
Qed.




(** C8, as amended.  With [0 <= overlap < maxLen], every chunk is non-empty
    and at most [maxLen] long; the chunks come paragraph by paragraph; a
    paragraph longer than [maxLen] gives two or more windows, the [i]-th
    starting [i * (maxLen - overlap)] code units into the paragraph, and
    every two windows in a row of one paragraph overlap by exactly
    [overlap] code units.  Chunks of different paragraphs share nothing. *)
Theorem chunks_bounded_and_overlapping cfg text :
  0 <= overlap cfg < maxLen cfg ->
  exists groups,
    (forall fuel, (List.length text < fuel)%nat ->
                  chunkText cfg fuel text = Some (List.concat groups)) /\
    Forall (fun c => 0 < len c <= maxLen cfg) (List.concat groups) /\
    Forall2 (windows_of cfg) (paragraphs text) groups.
Proof.
  intros Hcfg.
  destruct (chunk_parts_spec cfg (S (List.length text)) (paragraphs text) Hcfg)
    as (groups & Hrun & Hlen & Hrel).
  { eapply Forall_impl; [|apply paragraphs_lengths].
    cbv beta. unfold len. intros p Hp. lia. }
  exists groups. split; [|now split].
  intros fuel Hfuel. unfold chunkText.
  apply (chunk_parts_fuel cfg _ (S (List.length text))); [lia | exact Hrun].
Qed.

Lemma chunks_bounded_and_overlapping_witness :
  exists groups,
    (forall fuel, (List.length (str "abcdefghij") < fuel)%nat ->
                  chunkText small_windows fuel (str "abcdefghij")
                  = Some (List.concat groups)) /\
    Forall (fun c => 0 < len c <= maxLen small_windows) (List.concat groups) /\
    Forall2 (windows_of small_windows) (paragraphs (str "abcdefghij")) groups.
Proof.
  apply (chunks_bounded_and_overlapping small_windows (str "abcdefghij")).
  unfold overlap, maxLen. simpl. lia.
Defined.

(** C8, as stated, fails: of three paragraphs of 300 letters the text is
    longer than the maximum, and the first two chunks, which are not the
    last pair, share nothing. *)
Lemma paragraph_chunks_do_not_overlap :
  maxLen defaults < len three_paragraphs /\
  forall fuel,
    chunkText defaults fuel three_paragraphs
    = Some [repeat "a"%char 300; repeat "b"%char 300; repeat "c"%char 300] /\
    ~ overlaps_by (overlap defaults) (repeat "a"%char 300) (repeat "b"%char 300).
Proof.
  split; [reflexivity|]. intros fuel. split; [now vm_compute|].
  intros (_ & _ & H). vm_compute in H. discriminate.
Qed.

End ChunkerFacts.

(** ** Floating-point numbers *)

Module FloatFacts.

(** *** Mantissas *)

Lemma digits2_size m : digits2_pos m = Pos.size m.
Proof. induction m as [m IH | m IH |]; simpl; now rewrite ?IH. Qed.

Lemma digits2_bounds m :
  2 ^ (Z.pos (digits2_pos m) - 1) <= Z.pos m < 2 ^ Z.pos (digits2_pos m).
Proof.
  rewrite digits2_size.
  pose proof (Pos.size_gt m) as Hgt. pose proof (Pos.size_le m) as Hle.
  assert (Hpow : Z.pos (2 ^ Pos.size m) = 2 ^ Z.pos (Pos.size m))
    by apply Pos2Z.inj_pow.
  split.
  - assert (H2 : 2 ^ Z.pos (Pos.size m) = 2 * 2 ^ (Z.pos (Pos.size m) - 1)).
    { rewrite <- Z.pow_succ_r by lia. f_equal. lia. }
    lia.
  - lia.
Qed.

Lemma iter_xO m d : Z.pos (Pos.iter xO m d) = Z.pos m * 2 ^ Z.pos d.
Proof.
  induction d as [|d IH] using Pos.peano_ind.
  - simpl. lia.
  - rewrite Pos.iter_succ, Pos2Z.inj_xO, IH, Pos2Z.inj_succ, Z.pow_succ_r by lia.
    lia.
Qed.

Lemma shl_align_fst m e e' :
  e' <= e -> Z.pos (fst (shl_align m e e')) = Z.pos m * 2 ^ (e - e').
Proof.
  intros Hle. unfold shl_align.
  destruct (e' - e) as [|d|d] eqn:Hd; cbn [fst].
  - replace (e - e') with 0 by lia. rewrite Z.pow_0_r. lia.
  - lia.
  - rewrite iter_xO. f_equal. f_equal. lia.
Qed.

(** *** The order of canonical floats *)

Abbreviation emin := (SpecFloat.emin prec emax).
Abbreviation fexp := (SpecFloat.fexp prec emax).

Lemma bounded_canonical m e :
  bounded prec emax m e = true ->
  emin <= e /\ Z.pos (digits2_pos m) <= prec /\
  (emin < e -> Z.pos (digits2_pos m) = prec).
Proof.
  unfold bounded, canonical_mantissa, SpecFloat.fexp.
  intros H. apply andb_prop in H as [H _]. apply Z.eqb_eq in H.
  unfold prec in *. lia.
Qed.

(** On canonical positive floats [SFcompare] is the order of the values. *)
Lemma compare_canonical m1 e1 m2 e2 :
  bounded prec emax m1 e1 = true -> bounded prec emax m2 e2 = true ->
  SFcompare (S754_finite false m1 e1) (S754_finite false m2 e2)
  = Some (Z.pos m1 * 2 ^ (e1 - Z.min e1 e2) ?= Z.pos m2 * 2 ^ (e2 - Z.min e1 e2)).
Proof.
  intros H1 H2.
  apply bounded_canonical in H1 as (Hmin1 & Hd1 & Hn1).
  apply bounded_canonical in H2 as (Hmin2 & Hd2 & Hn2).
  pose proof (digits2_bounds m1) as B1. pose proof (digits2_bounds m2) as B2.
  assert (Hmono : forall a b, 0 <= a -> a <= b -> 2 ^ a <= 2 ^ b)
    by (intros; apply Z.pow_le_mono_r; lia).
  unfold SFcompare. f_equal.
  destruct (Z.compare_spec e1 e2) as [Heq | Hlt | Hgt].
  - subst e2. rewrite Z.min_id, Z.sub_diag, Z.pow_0_r, !Z.mul_1_r. reflexivity.
  - replace (Z.min e1 e2) with e1 by lia.
    rewrite Z.sub_diag, Z.pow_0_r, Z.mul_1_r. symmetry. apply Z.compare_lt_iff.
    rewrite (Hn2 ltac:(lia)) in B2.
    assert (2 ^ 1 <= 2 ^ (e2 - e1)) by (apply Hmono; lia).
    assert (Z.pos m1 < 2 ^ prec).
    { eapply Z.lt_le_trans; [apply B1 | apply Hmono; lia]. }
    replace (2 ^ prec) with (2 ^ (prec - 1) * 2 ^ 1) in *
      by (rewrite <- Z.pow_add_r by (unfold prec; lia); f_equal; lia).
    nia.
  - replace (Z.min e1 e2) with e2 by lia.
    rewrite Z.sub_diag, Z.pow_0_r, Z.mul_1_r. symmetry. apply Z.compare_gt_iff.
    rewrite (Hn1 ltac:(lia)) in B1.
    assert (2 ^ 1 <= 2 ^ (e1 - e2)) by (apply Hmono; lia).
    assert (Z.pos m2 < 2 ^ prec).
    { eapply Z.lt_le_trans; [apply B2 | apply Hmono; lia]. }
    replace (2 ^ prec) with (2 ^ (prec - 1) * 2 ^ 1) in *
      by (rewrite <- Z.pow_add_r by (unfold prec; lia); f_equal; lia).
    nia.
Qed.

(** *** Rounding keeps the sign *)

Lemma shr_1_m mrs : 0 <= shr_m mrs -> shr_m (shr_1 mrs) = shr_m mrs / 2.
Proof.
  destruct mrs as [m r s]. cbn [shr_m shr_1]. intros Hm.
  destruct m as [|[p|p|]|p]; cbn [shr_m]; try lia.
  - reflexivity.
  - apply (Z.div_unique _ 2 _ 1); lia.
  - apply (Z.div_unique _ 2 _ 0); lia.
  - reflexivity.
Qed.

Lemma iter_shr_m p :
  forall mrs, 0 <= shr_m mrs ->
    shr_m (iter_pos shr_1 p mrs) = shr_m mrs / 2 ^ Z.pos p.
Proof.
  assert (Hpos : forall q, 0 < 2 ^ Z.pos q) by (intros; apply Z.pow_pos_nonneg; lia).
  assert (Hdiv : forall a q, 0 <= a -> 0 <= a / 2 ^ Z.pos q)
    by (intros; apply Z.div_pos; [lia | apply Hpos]).
  induction p as [p IH | p IH |]; intros mrs Hm; simpl iter_pos.
  - assert (H1 : 0 <= shr_m (shr_1 mrs))
      by (rewrite shr_1_m; [apply Z.div_pos; lia | exact Hm]).
    assert (H2 : 0 <= shr_m (iter_pos shr_1 p (shr_1 mrs)))
      by (rewrite IH; auto).
    assert (Hsq : 2 ^ Z.pos p~1 = 2 * 2 ^ Z.pos p * 2 ^ Z.pos p).
    { rewrite <- Z.pow_succ_r, <- Z.pow_add_r by lia. f_equal. lia. }
    rewrite (IH _ H2), (IH _ H1), shr_1_m by exact Hm.
    rewrite !Z.div_div by (pose proof (Hpos p); lia).
    f_equal. rewrite Hsq. ring.
  - assert (H1 : 0 <= shr_m (iter_pos shr_1 p mrs)) by (rewrite IH; auto).
    assert (Hsq : 2 ^ Z.pos p~0 = 2 ^ Z.pos p * 2 ^ Z.pos p).
    { rewrite <- Z.pow_add_r by lia. f_equal. lia. }
    rewrite (IH _ H1), (IH _ Hm).
    rewrite Z.div_div by (pose proof (Hpos p); lia).
    f_equal. rewrite Hsq. ring.
  - rewrite shr_1_m by exact Hm. reflexivity.
Qed.

Lemma shr_fexp_pos m e l :
  0 < m -> emin <= e ->
  0 < shr_m (fst (shr_fexp prec emax m e l)) /\
  emin <= snd (shr_fexp prec emax m e l).
Proof.
  intros Hm He. unfold shr_fexp, shr.
  assert (Hrec : shr_m (shr_record_of_loc m l) = m)
    by (destruct l as [|[]]; reflexivity).
  destruct m as [|m|m]; try lia.
  destruct (fexp (Zdigits2 (Z.pos m) + e) - e) as [|n|n] eqn:Hn; simpl fst; simpl snd.
  - rewrite Hrec. lia.
  - rewrite iter_shr_m by (rewrite Hrec; lia). rewrite Hrec.
    unfold SpecFloat.fexp in Hn. simpl Zdigits2 in Hn.
    pose proof (digits2_bounds m) as [Hlo _].
    assert (Hp : Z.pos n = Z.pos (digits2_pos m) - prec) by lia.
    split; [|lia].
    apply Z.div_str_pos. split; [apply Z.pow_pos_nonneg; lia|].
    eapply Z.le_trans; [|exact Hlo].
    apply Z.pow_le_mono_r; unfold prec in *; lia.
  - rewrite Hrec. lia.
Qed.

Lemma round_nearest_even_pos m l : 0 < m -> 0 < round_nearest_even m l.
Proof.
  intros Hm. unfold round_nearest_even.
  destruct l as [|[]]; try lia. destruct (Z.even m); lia.
Qed.

Abbreviation zero := (S754_zero false).

Lemma binary_round_aux_pos m e l :
  0 < m -> emin <= e ->
  SFltb zero (binary_round_aux prec emax false m e l) = true.
Proof.
  intros Hm He. unfold binary_round_aux.
  pose proof (shr_fexp_pos m e l Hm He) as [Hm1 He1].
  destruct (shr_fexp prec emax m e l) as [mrs1 e1]. simpl in Hm1, He1.
  pose proof (shr_fexp_pos _ e1 loc_Exact
                (round_nearest_even_pos _ (loc_of_shr_record mrs1) Hm1) He1)
    as [Hm2 _].
  destruct (shr_fexp prec emax _ e1 loc_Exact) as [mrs2 e2]. simpl in Hm2.
  destruct (shr_m mrs2) as [|m2|m2]; try lia.
  destruct (e2 <=? emax - prec); reflexivity.
Qed.

Lemma binary_round_aux_neg m e l :
  SFltb zero (binary_round_aux prec emax true m e l) = false.
Proof.
  unfold binary_round_aux.
  destruct (shr_fexp prec emax m e l) as [mrs1 e1].
  destruct (shr_fexp prec emax _ e1 loc_Exact) as [mrs2 e2].
  destruct (shr_m mrs2) as [|m2|m2]; try reflexivity.
  destruct (e2 <=? emax - prec); reflexivity.
Qed.

Lemma binary_round_pos m e :
  emin <= e -> SFltb zero (binary_round prec emax false m e) = true.
Proof.
  intros He. unfold binary_round, shl_align.
  destruct (fexp (Z.pos (digits2_pos m) + e) - e) as [|d|d] eqn:Hd;
    apply binary_round_aux_pos; try lia.
  unfold SpecFloat.fexp. lia.
Qed.

Lemma binary_round_neg m e :
  SFltb zero (binary_round prec emax true m e) = false.
Proof.
  unfold binary_round.
  destruct (shl_align _ _ _) as [mz ez]. apply binary_round_aux_neg.
Qed.

(** *** The sign of a difference *)

Definition SFnonneg (x : spec_float) : Prop := SFleb zero x = true.

Lemma SFnonneg_cases x :
  SFnonneg x ->
  (exists s, x = S754_zero s) \/ x = S754_infinity false \/
  (exists m e, x = S754_finite false m e).
Proof.
  unfold SFnonneg. destruct x as [s|[]| |[] m e]; try discriminate; eauto.
Qed.

(** For two floats that are not negative, the difference is positive
    exactly when the first is the greater. *)
Lemma SFsub_sign x y :
  valid_binary x = true -> valid_binary y = true ->
  SFnonneg x -> SFnonneg y ->
  SFltb zero (SF64sub y x) = SFltb x y.
Proof.
  intros Vx Vy Hx Hy.
  destruct (SFnonneg_cases x Hx) as [[sx ->] | [-> | (mx & ex & ->)]];
    destruct (SFnonneg_cases y Hy) as [[sy ->] | [-> | (my & ey & ->)]];
    try reflexivity;
    try (destruct sx; reflexivity);
    try (destruct sx, sy; reflexivity).
  simpl in Vx, Vy.
  unfold SFltb at 2. rewrite (compare_canonical mx ex my ey Vx Vy).
  unfold SF64sub, SFsub, cond_Zopp.
  rewrite !shl_align_fst by lia. rewrite (Z.min_comm ey ex).
  set (a := Z.pos mx * 2 ^ (ex - Z.min ex ey)).
  set (b := Z.pos my * 2 ^ (ey - Z.min ex ey)).
  apply bounded_canonical in Vx as (Hx1 & _). apply bounded_canonical in Vy as (Hy1 & _).
  destruct (b - a) as [|d|d] eqn:Hd; unfold binary_normalize.
  - replace (a ?= b) with Eq by (symmetry; apply Z.compare_eq_iff; lia).
    reflexivity.
  - rewrite binary_round_pos by lia.
    replace (a ?= b) with Lt by (symmetry; apply Z.compare_lt_iff; lia).
    reflexivity.
  - rewrite binary_round_neg.
    replace (a ?= b) with Gt by (symmetry; apply Z.compare_gt_iff; lia).
    reflexivity.
Qed.

(** *** The order on floats that are not negative *)

Lemma SFltb_leb x y : SFltb x y = true -> SFleb x y = true.
Proof. unfold SFltb, SFleb. now destruct (SFcompare x y) as [[]|]. Qed.

Lemma SFleb_finite m1 e1 m2 e2 :
  SFleb (S754_finite false m1 e1) (S754_finite false m2 e2) = true <->
  e1 < e2 \/ e1 = e2 /\ (m1 <= m2)%positive.
Proof.
  unfold SFleb, SFcompare. rewrite Pos.compare_cont_spec.
  destruct (Z.compare_spec e1 e2) as [Heq | Hlt | Hgt].
  - unfold Pos.le. destruct (m1 ?= m2)%positive; simpl; intuition (try lia; try discriminate).
  - intuition.
  - intuition (try discriminate; lia).
Qed.

Lemma SFltb_finite m1 e1 m2 e2 :
  SFltb (S754_finite false m1 e1) (S754_finite false m2 e2) = true <->
  e1 < e2 \/ e1 = e2 /\ (m1 < m2)%positive.
Proof.
  unfold SFltb, SFcompare. rewrite Pos.compare_cont_spec.
  destruct (Z.compare_spec e1 e2) as [Heq | Hlt | Hgt].
  - unfold Pos.lt. destruct (m1 ?= m2)%positive; simpl; intuition (try lia; try discriminate).
  - intuition.
  - intuition (try discriminate; lia).
Qed.

Lemma SFleb_total x y :
  SFnonneg x -> SFnonneg y -> SFltb x y = false -> SFleb y x = true.
Proof.
  intros Hx Hy.
  destruct (SFnonneg_cases x Hx) as [[sx ->] | [-> | (mx & ex & ->)]];
    destruct (SFnonneg_cases y Hy) as [[sy ->] | [-> | (my & ey & ->)]];
    try reflexivity; try discriminate.
  intros Hlt. apply SFleb_finite.
  destruct (SFltb (S754_finite false mx ex) (S754_finite false my ey)) eqn:E;
    [discriminate|].
  assert (Hn : ~ (ex < ey \/ ex = ey /\ (mx < my)%positive)).
  { intros H. apply SFltb_finite in H. congruence. }
  lia.
Qed.

Lemma SFleb_trans x y z :
  SFnonneg x -> SFnonneg y -> SFnonneg z ->
  SFleb x y = true -> SFleb y z = true -> SFleb x z = true.
Proof.
  intros Hx Hy Hz.
  destruct (SFnonneg_cases x Hx) as [[sx ->] | [-> | (mx & ex & ->)]];
    destruct (SFnonneg_cases y Hy) as [[sy ->] | [-> | (my & ey & ->)]];
    destruct (SFnonneg_cases z Hz) as [[sz ->] | [-> | (mz & ez & ->)]];
    try reflexivity; try discriminate.
  rewrite !SFleb_finite. lia.
Qed.

(** Two floats that [==] holds of are two zeros or one value. *)
Lemma SFeqb_true x s :
  SFeqb x s = true ->
  (exists a b, x = S754_zero a /\ s = S754_zero b) \/ x = s.
Proof.
  unfold SFeqb.
  destruct x as [a|[]| |[] m1 e1], s as [b|[]| |[] m2 e2]; simpl;
    try discriminate; eauto;
    rewrite Pos.compare_cont_spec;
    destruct (Z.compare_spec e1 e2) as [-> | |]; try discriminate;
    destruct (Pos.compare_spec m1 m2) as [-> | |]; try discriminate; eauto.
Qed.

Lemma SFltb_irrefl x : SFltb x x = false.
Proof.
  unfold SFltb.
  destruct x as [a|[]| |[] m e]; simpl; try reflexivity;
    rewrite Z.compare_refl, Pos.compare_cont_refl; reflexivity.
Qed.

(** *** JavaScript numbers *)

Local Open Scope float_scope.

(** [0 <= x]: [x] is a zero, a positive number or [Infinity]. *)
Definition nonneg (x : float) : Prop := (0 <=? x) = true.

Lemma nonneg_spec x : nonneg x <-> SFnonneg (Prim2SF x).
Proof. unfold nonneg, SFnonneg. rewrite leb_spec. reflexivity. Qed.

(** [b - a > 0] exactly when [a < b]: the comparator of the retriever
    orders by score. *)
Lemma sub_positive x y : nonneg x -> nonneg y -> (0 <? y - x) = (x <? y).
Proof.
  intros Hx Hy. rewrite !ltb_spec, sub_spec.
  apply SFsub_sign; try apply Prim2SF_valid; now apply nonneg_spec.
Qed.

Lemma ltb_leb x y : (x <? y) = true -> (x <=? y) = true.
Proof. rewrite ltb_spec, leb_spec. apply SFltb_leb. Qed.

Lemma leb_total x y : nonneg x -> nonneg y -> (x <? y) = false -> (y <=? x) = true.
Proof.
  intros Hx Hy. rewrite ltb_spec, leb_spec.
  apply SFleb_total; now apply nonneg_spec.
Qed.

Lemma leb_trans x y z :
  nonneg x -> nonneg y -> nonneg z ->
  (x <=? y) = true -> (y <=? z) = true -> (x <=? z) = true.
Proof.
  intros Hx Hy Hz. rewrite !leb_spec.
  apply SFleb_trans; now apply nonneg_spec.
Qed.

(** Of two numbers equal to a third, none is less than the other. *)
Lemma eqb_not_ltb x y s : (x =? s) = true -> (y =? s) = true -> (x <? y) = false.
Proof.
  rewrite !eqb_spec, ltb_spec. intros Hx Hy.
  apply SFeqb_true in Hx. apply SFeqb_true in Hy.
  destruct Hx as [(a & b & -> & Hs) | ->], Hy as [(c & d & -> & Hs') | ->];
    try reflexivity.
  - rewrite Hs. reflexivity.
  - rewrite Hs'. reflexivity.
  - apply SFltb_irrefl.
Qed.

Lemma eqb_nonneg x s : (x =? s) = true -> (0 <=? x) = (0 <=? s).
Proof.
  rewrite eqb_spec, !leb_spec. intros Hx. apply SFeqb_true in Hx.
  destruct Hx as [(a & b & -> & ->) | ->]; reflexivity.
Qed.

End FloatFacts.

Import FloatFacts.

(** ** The retriever *)

Module RetrieverFacts.

Local Open Scope float_scope.

Section SortFacts.
Context {A : Type}.
Variable score_of : A -> float.

Let by_score (a b : A) : float := score_of b - score_of a.

Definition all_nonneg (l : list A) : Prop :=
  Forall (fun a => nonneg (score_of a)) l.

(** No later entry has a greater score. *)
Definition descending (l : list A) : Prop :=
  StronglySorted (fun a b => (score_of b <=? score_of a) = true) l.

Definition with_score (s : float) (l : list A) : list A :=
  filter (fun a => score_of a =? s) l.

Lemma insert_sorted_In x l y :
  In y (insert_sorted by_score x l) <-> y = x \/ In y l.
Proof.
  induction l as [|z l IH]; simpl.
  - intuition.
  - destruct (0 <? by_score x z); simpl; rewrite ?IH; intuition.
Qed.

Lemma sort_In l y : In y (sort by_score l) <-> In y l.
Proof.
  induction l as [|x l IH]; simpl; [reflexivity|].
  rewrite insert_sorted_In, IH. intuition.
Qed.

Lemma sort_all_nonneg l : all_nonneg l -> all_nonneg (sort by_score l).
Proof.
  unfold all_nonneg. rewrite !Forall_forall. intros H a Ha.
  apply H. now apply sort_In.
Qed.

Lemma insert_sorted_descending x l :
  nonneg (score_of x) -> all_nonneg l -> descending l ->
  descending (insert_sorted by_score x l).
Proof.
  intros Hx Hl Hsorted. induction Hsorted as [|y l Hsorted IH Hy]; simpl.
  - repeat constructor.
  - inversion Hl as [|? ? Hny Hnl]; subst.
    unfold by_score at 1. rewrite (sub_positive _ _ Hx Hny).
    destruct (score_of x <? score_of y) eqn:Hlt.
    + constructor; [now apply IH|].
      apply Forall_forall. intros z Hz. apply insert_sorted_In in Hz as [-> | Hz].
      * now apply ltb_leb.
      * rewrite Forall_forall in Hy. now apply Hy.
    + constructor; [now constructor|].
      pose proof (leb_total _ _ Hx Hny Hlt) as Hyx.
      constructor; [exact Hyx|].
      rewrite Forall_forall in *. intros z Hz.
      apply (leb_trans _ (score_of y)); auto.
Qed.

Lemma sort_descending l : all_nonneg l -> descending (sort by_score l).
Proof.
  induction 1 as [|x l Hx Hl IH]; simpl; [constructor|].
  apply insert_sorted_descending; [exact Hx | now apply sort_all_nonneg | exact IH].
Qed.

(** Entries of equal score keep their order. *)
Lemma insert_sorted_stable s x l :
  nonneg (score_of x) -> all_nonneg l ->
  with_score s (insert_sorted by_score x l) = with_score s (x :: l).
Proof.
  intros Hx Hl. induction Hl as [|y l Hy Hl IH]; [reflexivity|].
  simpl insert_sorted. unfold by_score at 1. rewrite (sub_positive _ _ Hx Hy).
  destruct (score_of x <? score_of y) eqn:Hlt; [|reflexivity].
  unfold with_score in *. simpl filter at 1. rewrite IH. simpl.
  destruct (score_of x =? s) eqn:Exs, (score_of y =? s) eqn:Eys; try reflexivity.
  rewrite (eqb_not_ltb _ _ s Exs Eys) in Hlt. discriminate.
Qed.

Lemma sort_stable s l :
  all_nonneg l -> with_score s (sort by_score l) = with_score s l.
Proof.
  induction 1 as [|x l Hx Hl IH]; [reflexivity|].
  simpl sort. rewrite insert_sorted_stable by (auto using sort_all_nonneg).
  unfold with_score in *. simpl. now rewrite IH.
Qed.

Lemma In_firstn n (l : list A) x : In x (firstn n l) -> In x l.
Proof.
  intros H. rewrite <- (firstn_skipn n l). apply in_or_app. now left.
Qed.

Lemma descending_firstn n l : descending l -> descending (firstn n l).
Proof.
  intros H. revert n. induction H as [|x l Hl IH Hx]; intros [|n]; simpl;
    try constructor.
  - apply IH.
  - rewrite Forall_forall in *. intros y Hy. apply Hx.
    now apply (In_firstn n).
Qed.

Lemma descending_nth l :
  descending l ->
  forall i j a b,
    (i < j)%nat -> nth_error l i = Some a -> nth_error l j = Some b ->
    (score_of b <=? score_of a) = true.
Proof.
  induction 1 as [|x l Hl IH Hx]; intros i j a b Hij Ha Hb.
  - now destruct i.
  - destruct j as [|j]; [lia|]. simpl in Hb. destruct i as [|i].
    + simpl in Ha. injection Ha as <-.
      rewrite Forall_forall in Hx. apply Hx. eapply nth_error_In; eauto.
    + simpl in Ha. apply (IH i j); auto. lia.
Qed.

End SortFacts.

Lemma slice_prefix {A} (l : list A) k :
  0 <= k -> slice l 0 k = firstn (Z.to_nat k) l.
Proof.
  intros Hk. unfold slice, rel_index.
  replace (k <? 0)%Z with false by (symmetry; apply Z.ltb_ge; lia).
  replace (0 <? 0)%Z with false by reflexivity.
  replace (Z.min 0 (Z.of_nat (List.length l))) with 0%Z by lia.
  rewrite Z.sub_0_r. change (Z.to_nat 0) with 0%nat. rewrite skipn_O.
  destruct (Z.le_ge_cases k (Z.of_nat (List.length l))).
  - now rewrite Z.min_l.
  - rewrite Z.min_r, Nat2Z.id by assumption.
    rewrite firstn_all. symmetry. apply firstn_all2. lia.
Qed.

Lemma with_score_nonneg {A} (score_of : A -> float) s l :
  with_score score_of s (filter (fun x => 0 <=? score_of x) l)
  = if 0 <=? s then with_score score_of s l else [].
Proof.
  unfold with_score. induction l as [|a l IH]; simpl.
  - now destruct (0 <=? s).
  - destruct (score_of a =? s) eqn:Eas.
    + rewrite (eqb_nonneg _ _ Eas).
      destruct (0 <=? s); simpl; [now rewrite Eas, IH | exact IH].
    + destruct (0 <=? score_of a); simpl; rewrite ?Eas; exact IH.
Qed.

(** A parser for the vectors of the examples. *)
Definition example_parse (text : jsstring) : option json :=
  if jseqb text (str "[1,1,1,1]") then Some (JArr [JNum 1; JNum 1; JNum 1; JNum 1])
  else if jseqb text (str "[1,0,0,0]") then Some (JArr [JNum 1; JNum 0; JNum 0; JNum 0])
  else if jseqb text (str "[-1,0,0,0]") then Some (JArr [JNum (-1); JNum 0; JNum 0; JNum 0])
  else if jseqb text (str "[0,0,0,0]") then Some (JArr [JNum 0; JNum 0; JNum 0; JNum 0])
  else if jseqb text (str "null") then Some JNull
  else None.

Definition example_builtins : Builtins :=
  {| JSON_parse := example_parse;
     JSON_stringify := fun _ => str "[1,1,1,1]";
     ToNumber_other := fun _ => NaN |}.

Definition example_row (i : Z) (name vector : string) : Row :=
  {| id := i; source := str "doc1"; chunk_index := i - 1;
     Store.content := str name; embedding_json := str vector; created_at := 0 |}.

Definition example_rows : list Row :=
  [example_row 1 "opposite" "[-1,0,0,0]";
   example_row 2 "half" "[1,0,0,0]";
   example_row 3 "broken" "[1,1,1";
   example_row 4 "same" "[1,1,1,1]";
   example_row 5 "again" "[1,1,1,1]";
   example_row 6 "zero" "[0,0,0,0]"].

Definition ones : list json := [JNum 1; JNum 1; JNum 1; JNum 1].

(** C2.  For a [k] of at least 1 the retriever gives at most [k] pairs; no
    pair has a greater score than a pair before it; every pair is the
    scored form of a stored row and has a score that is not negative, so a
    chunk of negative similarity is left out; and the pairs of one score
    are, in their order, the first of the scanned rows with that score. *)
Theorem retrieve_top_k js queryEmbedding rows topK :
  1 <= topK ->
  let candidates := map (score_row js queryEmbedding) rows in
  let found := retrieve js queryEmbedding rows topK in
  Z.of_nat (List.length found) <= topK /\
  (forall i j a b,
      (i < j)%nat -> nth_error found i = Some a -> nth_error found j = Some b ->
      (score b <=? score a) = true) /\
  (forall x, In x found -> In x candidates /\ (0 <=? score x) = true) /\
  (forall s, exists rest,
      with_score score s candidates = with_score score s found ++ rest).
Proof.
  intros Hk candidates found. subst found. unfold retrieve. fold candidates.
  rewrite slice_prefix by lia.
  set (kept := filter (fun x => 0 <=? score x) candidates).
  set (sorted := sort (fun a b => score b - score a) kept).
  assert (Hkept : all_nonneg score kept).
  { apply Forall_forall. intros x Hx. now apply filter_In in Hx as [_ Hx]. }
  assert (Hsorted : descending score sorted) by now apply sort_descending.
  assert (Hin : forall x, In x (firstn (Z.to_nat topK) sorted) -> In x kept).
  { intros x Hx. apply In_firstn in Hx.
    exact (proj1 (sort_In score kept x) Hx). }
  split; [|split; [|split]].
  - rewrite length_firstn. lia.
  - intros i j a b. apply descending_nth. now apply descending_firstn.
  - intros x Hx. apply Hin in Hx. unfold kept in Hx.
    now apply filter_In in Hx.
  - intros s.
    assert (Hsplit : with_score score s kept
                     = with_score score s (firstn (Z.to_nat topK) sorted)
                       ++ with_score score s (skipn (Z.to_nat topK) sorted)).
    { unfold with_score at 2 3. rewrite <- filter_app, firstn_skipn.
      symmetry. now apply sort_stable. }
    unfold kept in Hsplit at 1. rewrite with_score_nonneg in Hsplit.
    destruct (0 <=? s).
    + eexists. exact Hsplit.
    + symmetry in Hsplit. apply app_eq_nil in Hsplit as [-> _].
      eexists. reflexivity.
Qed.

Lemma retrieve_top_k_witness :
  let candidates := map (score_row example_builtins ones) example_rows in
  let found := retrieve example_builtins ones example_rows 3 in
  Z.of_nat (List.length found) <= 3 /\
  (forall i j a b,
      (i < j)%nat -> nth_error found i = Some a -> nth_error found j = Some b ->
      (score b <=? score a) = true) /\
  (forall x, In x found -> In x candidates /\ (0 <=? score x) = true) /\
  (forall s, exists rest,
      with_score score s candidates = with_score score s found ++ rest).
Proof.
  apply (retrieve_top_k example_builtins ones example_rows 3). lia.
Defined.

(** The rows of the example in the order of the retriever: the two rows of
    score 1 in scan order, then the row of score 0.5; the row of score 0
    is cut off, the other two are left out. *)
Example retrieve_example :
  map (fun x => (id (row x), score x))
      (retrieve example_builtins ones example_rows 3)
  = [(4%Z, 1%float); (5%Z, 1%float); (2%Z, 0.5%float)].
Proof. vm_compute. reflexivity. Qed.

End RetrieverFacts.

(** ** Cosine similarity *)

Module CosineFacts.

Local Open Scope float_scope.

(** [Number.isFinite(x)] *)
Definition isFinite (x : float) : bool :=
  match Prim2SF x with
  | S754_zero _ | S754_finite _ _ _ => true
  | _ => false
  end.

(** A vector of zeros, of either sign. *)
Definition zero_vector (z : list float) : Prop :=
  Forall (fun x => is_zero x = true) z.

Lemma Prim2SF_inj x y : Prim2SF x = Prim2SF y -> x = y.
Proof.
  intros H. rewrite <- (SF2Prim_Prim2SF x), <- (SF2Prim_Prim2SF y). now rewrite H.
Qed.

Lemma is_zero_spec x : is_zero x = true <-> exists s, Prim2SF x = S754_zero s.
Proof.
  unfold is_zero. rewrite eqb_spec. change (Prim2SF 0) with (S754_zero false).
  split.
  - intros H. apply SFeqb_true in H as [(a & b & Ha & _) | H]; eauto.
  - intros (s & ->). reflexivity.
Qed.

Lemma zero_square x : is_zero x = true -> x * x = 0.
Proof.
  intros H. apply is_zero_spec in H as (s & Hs).
  apply Prim2SF_inj. rewrite mul_spec, Hs. now destruct s.
Qed.

Lemma dot_zero_vector z : zero_vector z -> dot z z = 0.
Proof.
  unfold dot. induction 1 as [|x z Hx _ IH]; [reflexivity|].
  simpl. rewrite (zero_square x Hx). exact IH.
Qed.

Lemma norm_zero_vector z : zero_vector z -> norm z = 0.
Proof. intros H. unfold norm. now rewrite (dot_zero_vector z H). Qed.

(** A finite number times zero is a zero. *)
Lemma finite_times_zero x : isFinite x = true -> is_zero (x * 0) = true.
Proof.
  unfold isFinite. intros H. apply is_zero_spec.
  rewrite mul_spec. change (Prim2SF 0) with (S754_zero false).
  destruct (Prim2SF x) as [s|s| |s m e]; try discriminate; simpl; eauto.
Qed.

(** The guard of [cosineSim]: against a vector of zeros the result is 0,
    for every vector whose norm is a finite number. *)
Lemma cosineSim_zero_vector v z :
  isFinite (norm v) = true -> zero_vector z -> cosineSim v z = 0.
Proof.
  intros Hv Hz. unfold cosineSim. rewrite (norm_zero_vector z Hz).
  now rewrite (finite_times_zero _ Hv).
Qed.

(** Where the norm overflows the denominator is NaN, which the guard lets
    through; where the square underflows the norm is 0. *)
Lemma cosineSim_out_of_range :
  cosineSim [0x1p600] [0] = NaN /\
  cosineSim [0x1p600] [0x1p600] = NaN /\
  cosineSim [0x1p-600] [0x1p-600] = 0.
Proof. repeat split; vm_compute; reflexivity. Qed.

End CosineFacts.

(** ** The handlers *)

Module ServerFacts.

(** The error taxonomy of the specification. *)
Inductive ErrorKind :=
| BadRequest
| MissingConfiguration
| EmbeddingUpstreamError
| EmbeddingResponseInvalid
| UpstreamError
| UpstreamTimeout
| UpstreamResponseInvalid
| InternalError.

(** The kind that a [code] of the server stands for; the server has no code
    for the two embedding kinds and none for a timeout. *)
Definition kind_of_code (code : jsstring) : option ErrorKind :=
  if jseqb code (str "BAD_REQUEST") then Some BadRequest
  else if jseqb code (str "MISSING_API_KEY") then Some MissingConfiguration
  else if jseqb code (str "UPSTREAM_ERROR") then Some UpstreamError
  else if jseqb code (str "BAD_UPSTREAM_RESPONSE") then Some UpstreamResponseInvalid
  else if jseqb code (str "INTERNAL_ERROR") then Some InternalError
  else None.

Definition reply_kind (r : Reply) : option ErrorKind :=
  match body r with
  | Failure code _ _ => kind_of_code code
  | _ => None
  end.

(** The correlation id that a reply carries. *)
Definition reply_requestId (r : Reply) : jsstring :=
  match body r with
  | Failure _ _ rid => rid
  | Ingested rid _ => rid
  | Answer _ rid _ _ _ => rid
  end.

(** The outbound calls made between two states. *)
Definition new_calls (st st' : State) : list Call :=
  skipn (List.length (calls st)) (calls st').

(** The request that [embedText] sends for [input]. *)
Definition embedding_request (W : World) (key base input : jsstring)
  : EmbeddingRequest :=
  {| emb_url :=
       strip_trailing_slashes (or_default (EMBEDDING_BASE_URL (env W)) base)
         ++ str "/embeddings";
     emb_authorization := str "Bearer " ++ key;
     emb_model := or_default (EMBEDDING_MODEL (env W)) (str "BAAI/bge-m3");
     emb_input := input |}.

(** What [embedText] makes of the settled call: the vector, or what it
    throws. *)
Definition embedding_of (s : Settled) : Exn + list json :=
  match s with
  | Rejected e => inl e
  | Fulfilled res =>
      if negb (res_ok res) then
        inl (Error (or_else (res_text res)
                      (str "Embedding upstream HTTP " ++ of_Z (res_status res))))
      else
        match res_json res with
        | None => inl SyntaxError
        | Some data =>
            match get "embedding" (get0 (get "data" (Some data))) with
            | Some (JArr (JNum x :: rest)) => inr (JNum x :: rest)
            | _ => inl (Error (str "Embedding upstream returned an invalid response"))
            end
        end
  end.

Definition to_outcome {A} (r : Exn + A) : Outcome A :=
  match r with
  | inl e => Threw e
  | inr a => Returned a
  end.

Definition with_call (st : State) (c : Call) : State :=
  {| table := table st; calls := calls st ++ [c] |}.

Section Runs.
Variable W : World.

(** One run of [embedText]: one call goes out, and the outcome is read off
    the provider's reply to it. *)
Lemma embedText_run key base input st :
  let req := embedding_request W key base input in
  embedText W key base input st
  = (with_call st (EmbeddingCall req),
     to_outcome (embedding_of (embedding_provider W (List.length (calls st)) req))).
Proof.
  intros req. subst req.
  unfold embedText, embedding_request, embedding_of, to_outcome, with_call.
  unfold fetch_embeddings, bind, record_call, settle, throw, ret.
  destruct (embedding_provider W _ _) as [res | e]; [|reflexivity].
  destruct (res_ok res); [|reflexivity].
  cbv beta iota delta [negb].
  destruct (res_json res) as [data|]; [|reflexivity].
  destruct (get "embedding" (get0 (get "data" (Some data)))) as [[| | | |[|[]]|]|];
    reflexivity.
Qed.

Lemma new_calls_with_call st c : new_calls st (with_call st c) = [c].
Proof.
  unfold new_calls, with_call. simpl.
  rewrite skipn_app, skipn_all, Nat.sub_diag. reflexivity.
Qed.

Definition internal_error_reply : Reply :=
  failure W 500 "INTERNAL_ERROR" (str "Internal server error").

(** The request that [/chat] sends to the completion provider. *)
Definition completion_request (key : jsstring) (parsed : ChatRequest)
           (useRag : bool) (ragContext : jsstring) : CompletionRequest :=
  {| cmp_url := baseUrl W ++ str "/chat/completions";
     cmp_authorization := str "Bearer " ++ key;
     cmp_model := model W;
     cmp_stream := false;
     cmp_temperature := temperature parsed;
     cmp_max_tokens := max_tokens parsed;
     cmp_messages := prompt_messages W useRag ragContext (messages parsed) |}.

(** The reply of [/chat] to a response of the completion provider. *)
Definition respond (res : FetchResponse) (latencyMs : Z)
           (citations : list Citation) : Reply :=
  if negb (res_ok res) then
    failure W 502 "UPSTREAM_ERROR"
      (or_else (res_text res) (str "Upstream HTTP " ++ of_Z (res_status res)))
  else
    match res_json res with
    | None => internal_error_reply
    | Some data =>
        match get "content" (get "message" (get0 (get "choices" (Some data)))) with
        | Some (JStr (c :: message)) =>
            {| status := 200;
               body := Answer (c :: message) (randomUUID W) (model W)
                         latencyMs citations |}
        | _ =>
            failure W 502 "BAD_UPSTREAM_RESPONSE"
              (str "Upstream returned an invalid response")
        end
    end.

Definition wants_rag (parsed : ChatRequest) : bool :=
  match use_rag parsed with Some true => true | _ => false end.

Definition topK_of (parsed : ChatRequest) : Z :=
  or_default (top_k parsed) (or_default (RAG_TOP_K (env W)) 4).

(** The text that [/chat] embeds: the last user message, if retrieval is
    asked for and there is one. *)
Definition query_of (parsed : ChatRequest) : option jsstring :=
  if wants_rag parsed then
    match lastUser (messages parsed) with
    | Some (c :: q) => Some (c :: q)
    | _ => None
    end
  else None.

Lemma fetch_completions_run req st :
  fetch_completions W req st =
  let st1 := with_call st (CompletionCall req) in
  let reply := completion_provider W req in
  if timeoutMs W <? delay_ms reply
  then (with_call st1 AbortSignal, Threw AbortError)
  else
    match outcome reply with
    | Fulfilled res => (st1, Returned (res, delay_ms reply))
    | Rejected e => (st1, Threw e)
    end.
Proof.
  unfold fetch_completions, bind, record_call, settle, throw, ret, with_call.
  cbv zeta. cbn [calls table].
  destruct (timeoutMs W <? delay_ms (completion_provider W req)); [reflexivity|].
  destruct (outcome (completion_provider W req)); reflexivity.
Qed.

Lemma retrieval_run key parsed st :
  retrieval W key (wants_rag parsed) (topK_of parsed) (messages parsed) st =
  match query_of parsed with
  | None => (st, Returned ([], []))
  | Some q =>
      let req := embedding_request W key (baseUrl W) q in
      let st1 := with_call st (EmbeddingCall req) in
      match embedding_of (embedding_provider W (List.length (calls st)) req) with
      | inl e => (st1, Threw e)
      | inr queryEmbedding =>
          let scored :=
            retrieve (builtins W) queryEmbedding (rows (table st)) (topK_of parsed) in
          (st1, Returned (join [LF; LF] (map context_block scored),
                          map citation_of scored))
      end
  end.
Proof.
  unfold retrieval, query_of.
  destruct (wants_rag parsed); [|reflexivity].
  destruct (lastUser (messages parsed)) as [[|c q]|]; try reflexivity.
  unfold bind. rewrite embedText_run. cbv zeta.
  destruct (embedding_of _) as [e | v]; reflexivity.
Qed.

(** A run of [/chat] on a valid request with a key at hand: retrieval, then
    the completion call, then the reply; whatever is thrown on the way ends
    in the one reply of the [catch] block. *)
Lemma chat_run req_body st parsed key :
  ChatRequestSchema req_body = Some parsed ->
  apiKey W = Some key ->
  chat W req_body st =
  match retrieval W key (wants_rag parsed) (topK_of parsed) (messages parsed) st with
  | (st1, Threw _) => (st1, internal_error_reply)
  | (st1, Returned (ragContext, citations)) =>
      match fetch_completions W
              (completion_request key parsed (wants_rag parsed) ragContext) st1
      with
      | (st2, Threw _) => (st2, internal_error_reply)
      | (st2, Returned (res, latencyMs)) => (st2, respond res latencyMs citations)
      end
  end.
Proof.
  intros Hparsed Hkey. unfold chat. rewrite Hparsed, Hkey.
  fold (wants_rag parsed). fold (topK_of parsed).
  unfold handle, bind.
  destruct (retrieval W key _ _ _ st) as [st1 [[ragContext citations] | e]];
    [|reflexivity].
  fold (completion_request key parsed (wants_rag parsed) ragContext).
  destruct (fetch_completions W _ st1) as [st2 [[res latencyMs] | e]];
    [|reflexivity].
  unfold respond, ret, throw, internal_error_reply.
  destruct (res_ok res); [|reflexivity].
  cbv beta iota delta [negb].
  destruct (res_json res) as [data|]; [|reflexivity].
  destruct (get "content" (get "message" (get0 (get "choices" (Some data)))))
    as [[| | |[|]| |]|]; reflexivity.
Qed.

Lemma new_calls_same st : new_calls st st = [].
Proof. unfold new_calls. now rewrite skipn_all. Qed.

Lemma new_calls_app st cs :
  new_calls st {| table := table st; calls := calls st ++ cs |} = cs.
Proof.
  unfold new_calls. simpl. now rewrite skipn_app, skipn_all, Nat.sub_diag.
Qed.

Lemma new_calls_two st t c d :
  new_calls st (with_call {| table := t; calls := calls st ++ [c] |} d) = [c; d].
Proof.
  unfold new_calls, with_call. simpl. rewrite <- app_assoc.
  now rewrite skipn_app, skipn_all, Nat.sub_diag.
Qed.





Lemma new_calls_of st st' cs :
  calls st' = calls st ++ cs -> new_calls st st' = cs.
Proof.
  intros H. unfold new_calls. rewrite H.
  now rewrite skipn_app, skipn_all, Nat.sub_diag.
Qed.

Lemma jseqb_eq a b : jseqb a b = true -> a = b.
Proof. unfold jseqb. now destruct (list_eq_dec ascii_dec a b). Qed.

(** What the schema lets through as a message. *)
Lemma parse_message_sound v m :
  parse_message v = Some m ->
  content m <> [] /\
  (role m = str "user" \/ role m = str "assistant").
Proof.
  unfold parse_message.
  destruct v as [| | | | |fields]; try discriminate.
  destruct (obj_lookup (str "role") fields) as [[| | |r| |]|]; try discriminate.
  destruct (obj_lookup (str "content") fields) as [[| | |c| |]|]; try discriminate.
  destruct ((jseqb r (str "user") || jseqb r (str "assistant")) && (1 <=? len c))
    eqn:Hok; [|discriminate].
  intros H. injection H as <-. cbn [content role].
  apply andb_prop in Hok as [Hrole Hc]. apply orb_prop in Hrole.
  apply Z.leb_le in Hc. split.
  - destruct c; [unfold len in Hc; simpl in Hc; lia | discriminate].
  - destruct Hrole as [Hr | Hr]; apply jseqb_eq in Hr; auto.
Qed.

Lemma parse_array_sound {A} (parse : json -> option A) (P : A -> Prop) :
  (forall v a, parse v = Some a -> P a) ->
  forall items l, parse_array parse items = Some l -> Forall P l.
Proof.
  intros Hparse. induction items as [|v items IH]; intros l H; simpl in H.
  - injection H as <-. constructor.
  - destruct (parse v) as [a|] eqn:Ea; [|discriminate].
    destruct (parse_array parse items) as [more|]; [|discriminate].
    injection H as <-. constructor; eauto.
Qed.

Lemma ChatRequestSchema_messages req_body parsed :
  ChatRequestSchema req_body = Some parsed ->
  Forall (fun m => content m <> [] /\
                   (role m = str "user" \/ role m = str "assistant"))
         (messages parsed).
Proof.
  unfold ChatRequestSchema.
  destruct req_body as [| | | | |fields]; try discriminate.
  destruct (obj_lookup (str "messages") fields) as [[| | | |items|]|];
    try discriminate.
  destruct (parse_array parse_message items) as [ms|] eqn:Ems; [|discriminate].
  destruct (optional _ _); [|discriminate].
  destruct (optional _ _); [|discriminate].
  destruct (optional _ _); [|discriminate].
  destruct (optional _ _); [|discriminate].
  intros H. injection H as <-. simpl.
  eapply parse_array_sound; [|exact Ems]. apply parse_message_sound.
Qed.

Lemma lastUser_nonempty req_body parsed q :
  ChatRequestSchema req_body = Some parsed ->
  lastUser (messages parsed) = Some q -> q <> [].
Proof.
  intros Hparsed Hq. unfold lastUser in Hq.
  destruct (find _ (rev (messages parsed))) as [m|] eqn:Hfind; [|discriminate].
  injection Hq as <-. apply find_some in Hfind as [Hin _].
  apply in_rev in Hin.
  pose proof (ChatRequestSchema_messages req_body parsed Hparsed) as Hall.
  rewrite Forall_forall in Hall. now apply Hall.
Qed.



(** *** Ingest *)

Section Ingest.
Variable key src : jsstring.

(** The provider's answer to the embedding call for [content] when [n]
    calls have gone out before. *)
Definition embedding_answer (n : nat) (content : jsstring) : Exn + list json :=
  embedding_of
    (embedding_provider W n (embedding_request W key (baseUrl W) content)).

Lemma embed_chunks_table chunks :
  forall i st st1 o,
    embed_chunks W key src i chunks st = (st1, o) -> table st1 = table st.
Proof.
  induction chunks as [|content chunks IH]; intros i st st1 o H; simpl in H.
  - now injection H as <- _.
  - unfold bind in H. rewrite embedText_run in H. cbv zeta in H.
    destruct (embedding_of _) as [e | v]; simpl in H.
    + now injection H as <- _.
    + destruct (embed_chunks W key src (i + 1) chunks _) as [st2 [more | e]] eqn:E;
        apply IH in E; simpl in E; now injection H as <- _.
Qed.

(** One failed embedding call makes the loop throw. *)
Lemma embed_chunks_throws chunks :
  forall i st j content e,
    nth_error chunks j = Some content ->
    embedding_answer (List.length (calls st) + j) content = inl e ->
    exists st1 e', embed_chunks W key src i chunks st = (st1, Threw e').
Proof.
  induction chunks as [|c chunks IH]; intros i st j content e Hj Hfail.
  - now destruct j.
  - simpl. unfold bind. rewrite embedText_run. cbv zeta.
    fold (embedding_answer (List.length (calls st)) c).
    destruct (embedding_answer (List.length (calls st)) c) as [e0 | v] eqn:Hc;
      simpl; [eauto|].
    destruct j as [|j].
    + simpl in Hj. injection Hj as ->. rewrite Nat.add_0_r in Hfail. congruence.
    + simpl in Hj.
      destruct (IH (i + 1)
                   (with_call st (EmbeddingCall
                                    (embedding_request W key (baseUrl W) c)))
                   j content e Hj) as (st1 & e' & ->).
      * unfold with_call. simpl. rewrite length_app. simpl.
        now replace (List.length (calls st) + 1 + j)%nat
          with (List.length (calls st) + S j)%nat by lia.
      * eauto.
Qed.

(** When every embedding call succeeds the loop returns one row per chunk,
    in the order of the chunks, numbered from [i]. *)
Lemma embed_chunks_returns chunks :
  forall i st,
    (forall j content, nth_error chunks j = Some content ->
       exists v, embedding_answer (List.length (calls st) + j) content = inr v) ->
    exists st1 rows,
      embed_chunks W key src i chunks st = (st1, Returned rows) /\
      map new_content rows = chunks /\
      map new_chunk_index rows
      = map (fun j => i + Z.of_nat j) (seq 0 (List.length chunks)) /\
      Forall (fun r => new_source r = src) rows.
Proof.
  induction chunks as [|c chunks IH]; intros i st Hok.
  - exists st, []. repeat split. constructor.
  - simpl. unfold bind. rewrite embedText_run. cbv zeta.
    fold (embedding_answer (List.length (calls st)) c).
    destruct (Hok 0%nat c eq_refl) as (v & Hv). rewrite Nat.add_0_r in Hv.
    rewrite Hv. simpl.
    destruct (IH (i + 1)
                 (with_call st (EmbeddingCall
                                  (embedding_request W key (baseUrl W) c))))
      as (st1 & rows & -> & Hcontent & Hindex & Hsrc).
    { intros j content Hj. unfold with_call. simpl. rewrite length_app. simpl.
      replace (List.length (calls st) + 1 + j)%nat
        with (List.length (calls st) + S j)%nat by lia.
      now apply (Hok (S j)). }
    eexists. eexists. split; [reflexivity|]. simpl. repeat split.
    + now rewrite Hcontent.
    + rewrite Hindex. f_equal; [lia|].
      rewrite <- seq_shift, map_map. apply map_ext. intros j. lia.
    + now constructor.
Qed.

End Ingest.

Lemma embed_chunks_rows key src chunks :
  forall i st st1 rows,
    embed_chunks W key src i chunks st = (st1, Returned rows) ->
    map new_content rows = chunks /\
    map new_chunk_index rows
    = map (fun j => i + Z.of_nat j) (seq 0 (List.length chunks)) /\
    map new_source rows = map (fun _ => src) chunks.
Proof.
  induction chunks as [|c chunks IH]; intros i st st1 rows H; simpl in H.
  - injection H as _ <-. repeat split.
  - unfold bind in H. rewrite embedText_run in H. cbv zeta in H.
    destruct (embedding_of _) as [e | v]; simpl in H; [discriminate|].
    destruct (embed_chunks W key src (i + 1) chunks _) as [st2 [more | e]] eqn:E;
      [|discriminate].
    injection H as _ <-. apply IH in E as (Hcontent & Hindex & Hsrc).
    simpl. repeat split.
    + now rewrite Hcontent.
    + rewrite Hindex. f_equal; [lia|].
      rewrite <- seq_shift, map_map. apply map_ext. intros j. lia.
    + now rewrite Hsrc.
Qed.

(** The rows that a batch adds to the table. *)
Definition stored_as (news : list NewRow) (added : list Row) : Prop :=
  map Store.content added = map new_content news /\
  map chunk_index added = map new_chunk_index news /\
  map source added = map new_source news.

Lemma insert_all_run news :
  forall count st st' o,
    insert_all W count news st = (st', o) ->
    calls st' = calls st /\
    match o with
    | Returned c =>
        c = count + Z.of_nat (List.length news) /\
        exists added, rows (table st') = rows (table st) ++ added /\
                      stored_as news added
    | Threw _ => True
    end.
Proof.
  induction news as [|r news IH]; intros count st st' o H; simpl in H.
  - injection H as <- <-. split; [reflexivity|]. split; [simpl; lia|].
    exists []. rewrite app_nil_r. repeat split.
  - unfold bind, run_insert in H.
    destruct (sqlite_accepts W (table st) r).
    + apply IH in H as [Hcalls Ho]. split; [exact Hcalls|].
      destruct o as [c|e]; [|exact I].
      destruct Ho as (-> & added & Hrows & Hc & Hi & Hs). split.
      * cbn [List.length]. lia.
      * simpl in Hrows. rewrite <- app_assoc in Hrows.
        eexists. split; [exact Hrows|]. unfold stored_as. simpl.
        now rewrite Hc, Hi, Hs.
    + injection H as <- <-. split; [reflexivity | exact I].
Qed.

Lemma insert_all_accepted news :
  (forall t r, sqlite_accepts W t r = true) ->
  forall count st, exists st' c, insert_all W count news st = (st', Returned c).
Proof.
  intros Hacc. induction news as [|r news IH]; intros count st; simpl.
  - unfold ret. eauto.
  - unfold bind, run_insert. rewrite Hacc. apply IH.
Qed.

(** [inserted(rows)] stores the whole batch or leaves the table as it was. *)
Lemma inserted_run news st st' o :
  inserted W news st = (st', o) ->
  calls st' = calls st /\
  match o with
  | Returned c =>
      c = Z.of_nat (List.length news) /\
      exists added, rows (table st') = rows (table st) ++ added /\
                    stored_as news added
  | Threw _ => table st' = table st
  end.
Proof.
  unfold inserted, transaction.
  destruct (insert_all W 0 news st) as [st2 [c | e]] eqn:E; intros H;
    injection H as <- <-; apply insert_all_run in E as [Hcalls Ho].
  - split; [exact Hcalls|]. destruct Ho as (-> & Hadded). split; [lia | exact Hadded].
  - split; [exact Hcalls | reflexivity].
Qed.

End Runs.

(** An environment with a key and nothing else set. *)
Definition example_env : Env :=
  {| DEEPSEEK_API_KEY := Some (str "sk-test");
     DEEPSEEK_BASE_URL := None;
     DEEPSEEK_MODEL := None;
     DEEPSEEK_TIMEOUT_MS := None;
     EMBEDDING_BASE_URL := None;
     EMBEDDING_MODEL := None;
     RAG_TOP_K := None;
     SYSTEM_PROMPT := None;
     chunking := defaults |}.

(** A world whose providers give the same reply to every call. *)
Definition example_world (emb : Settled) (cmp : TimedReply) : World :=
  {| env := example_env;
     builtins := RetrieverFacts.example_builtins;
     randomUUID := str "req-1";
     Date_now := 1700000000000;
     embedding_provider := fun _ _ => emb;
     completion_provider := fun _ => cmp;
     sqlite_accepts := fun _ _ => true |}.

Definition json_response (code : Z) (data : json) : Settled :=
  Fulfilled {| res_ok := (200 <=? code) && (code <=? 299);
               res_status := code;
               res_text := [];
               res_json := Some data |}.

Definition hello : Settled :=
  json_response 200
    (JObj [(str "choices",
            JArr [JObj [(str "message",
                         JObj [(str "content", JStr (str "Hello"))])]])]).

Definition unit_vector : Settled :=
  json_response 200
    (JObj [(str "data",
            JArr [JObj [(str "embedding", JArr RetrieverFacts.ones)]])]).

Definition fresh : State :=
  {| table := {| rows := []; last_id := 0 |}; calls := [] |}.

Definition user_says (text : string) : json :=
  JObj [(str "role", JStr (str "user")); (str "content", JStr (str text))].




(** C6, as amended.  When the completion call of a chat request takes
    longer than the configured timeout, the call is aborted (the abort
    signal is the last thing that goes out) and the request fails with the
    general INTERNAL_ERROR reply; the server has no kind of its own for a
    timeout. *)
Theorem completion_timeout_internal_error W req_body st req :
  In (CompletionCall req) (new_calls st (fst (chat W req_body st))) ->
  timeoutMs W < delay_ms (completion_provider W req) ->
  snd (chat W req_body st)
  = failure W 500 "INTERNAL_ERROR" (str "Internal server error")
  /\ reply_kind (snd (chat W req_body st)) = Some InternalError
  /\ exists before,
       new_calls st (fst (chat W req_body st))
       = before ++ [CompletionCall req; AbortSignal].
Proof.
  intros Hcall Hslow.
  destruct (ChatRequestSchema req_body) as [parsed|] eqn:Hparsed.
  2:{ unfold chat in Hcall. rewrite Hparsed in Hcall. simpl in Hcall.
      now rewrite new_calls_same in Hcall. }
  destruct (apiKey W) as [key|] eqn:Hkey.
  2:{ unfold chat in Hcall. rewrite Hparsed, Hkey in Hcall. simpl in Hcall.
      now rewrite new_calls_same in Hcall. }
  rewrite (chat_run W req_body st parsed key Hparsed Hkey) in *.
  rewrite retrieval_run in *.
  assert (Hend : forall st1 before ragContext citations,
             calls st1 = calls st ++ before ->
             (forall r, ~ In (CompletionCall r) before) ->
             let run :=
               match fetch_completions W
                       (completion_request W key parsed (wants_rag parsed) ragContext)
                       st1
               with
               | (st2, Threw _) => (st2, internal_error_reply W)
               | (st2, Returned (res, latencyMs)) =>
                   (st2, respond W res latencyMs citations)
               end in
             In (CompletionCall req) (new_calls st (fst run)) ->
             snd run = internal_error_reply W /\
             new_calls st (fst run) = before ++ [CompletionCall req; AbortSignal]).
  { intros st1 before ragContext citations Hst1 Hbefore run.
    subst run. rewrite fetch_completions_run. cbv zeta.
    set (req0 := completion_request W key parsed (wants_rag parsed) ragContext).
    assert (Hreq : forall cs,
               In (CompletionCall req) (before ++ CompletionCall req0 :: cs) ->
               (forall r, ~ In (CompletionCall r) cs) -> req = req0).
    { intros cs Hin Hcs. apply in_app_or in Hin as [Hin | [Hin | Hin]].
      - now apply Hbefore in Hin.
      - now injection Hin.
      - now apply Hcs in Hin. }
    destruct (timeoutMs W <? delay_ms (completion_provider W req0)) eqn:Hlate.
    - simpl fst. simpl snd.
      rewrite (new_calls_of st _ (before ++ [CompletionCall req0; AbortSignal])).
      2:{ unfold with_call. simpl. rewrite Hst1, <- !app_assoc. reflexivity. }
      intros Hin. apply Hreq in Hin.
      + subst req0. now rewrite Hin.
      + intros r [Hr | []]. discriminate.
    - assert (Hnew : forall o : Outcome (FetchResponse * Z),
                 new_calls st (fst (with_call st1 (CompletionCall req0), o))
                 = before ++ [CompletionCall req0]).
      { intros o. apply new_calls_of. unfold with_call. simpl.
        now rewrite Hst1, <- app_assoc. }
      apply Z.ltb_ge in Hlate.
      destruct (outcome (completion_provider W req0)) as [res | e]; simpl fst;
        intros Hin; exfalso;
        rewrite (new_calls_of st _ (before ++ [CompletionCall req0])) in Hin
          by (unfold with_call; simpl; now rewrite Hst1, <- app_assoc);
        apply Hreq in Hin; try (intros r []);
        subst req0; rewrite <- Hin in Hlate; lia. }
  destruct (query_of parsed) as [q|].
  - cbv zeta in *.
    destruct (embedding_of _) as [e | queryEmbedding].
    + simpl in Hcall. rewrite new_calls_with_call in Hcall.
      destruct Hcall as [Hcall | []]. discriminate.
    + destruct (Hend (with_call st (EmbeddingCall
                                      (embedding_request W key (baseUrl W) q)))
                     [EmbeddingCall (embedding_request W key (baseUrl W) q)]
                     _ _ eq_refl ltac:(intros r [Hr | []]; discriminate) Hcall)
        as [Hreply Hcalls].
      rewrite Hreply, Hcalls. repeat split. eauto.
  - destruct (Hend st [] _ _ ltac:(now rewrite app_nil_r)
                   ltac:(intros r []) Hcall) as [Hreply Hcalls].
    rewrite Hreply, Hcalls. repeat split. eauto.
Qed.

Definition says_hi : json := JObj [(str "messages", JArr [user_says "hi"])].

Definition asks_with_rag : json :=
  JObj [(str "messages", JArr [user_says "hi"]); (str "use_rag", JBool true)].

Definition hi_request : CompletionRequest :=
  {| cmp_url := str "https://api.deepseek.com/chat/completions";
     cmp_authorization := str "Bearer sk-test";
     cmp_model := str "deepseek-chat";
     cmp_stream := false;
     cmp_temperature := None;
     cmp_max_tokens := None;
     cmp_messages :=
       [{| role := str "system"; content := DEFAULT_SYSTEM_PROMPT |};
        {| role := str "user"; content := str "hi" |}] |}.

(** The provider answers after a minute; the timeout is 20 seconds. *)
Definition slow_world : World :=
  example_world unit_vector {| delay_ms := 60000; outcome := hello |}.

(** The connection to the completion provider fails at once. *)
Definition offline_world : World :=
  example_world unit_vector {| delay_ms := 1; outcome := Rejected TypeError |}.

(** The embedding provider answers with HTTP 500. *)
Definition broken_embeddings : World :=
  example_world
    (Fulfilled {| res_ok := false; res_status := 500;
                  res_text := str "boom"; res_json := None |})
    {| delay_ms := 35; outcome := hello |}.

Lemma completion_timeout_witness :
  snd (chat slow_world says_hi fresh)
  = failure slow_world 500 "INTERNAL_ERROR" (str "Internal server error")
  /\ reply_kind (snd (chat slow_world says_hi fresh)) = Some InternalError
  /\ exists before,
       new_calls fresh (fst (chat slow_world says_hi fresh))
       = before ++ [CompletionCall hi_request; AbortSignal].
Proof.
  apply (completion_timeout_internal_error slow_world says_hi fresh hi_request).
  - vm_compute. left. reflexivity.
  - reflexivity.
Defined.

(** C6, as stated, fails: the reply to a timeout is the INTERNAL_ERROR reply,
    the very reply that a failed connection gets. *)
Lemma timeout_reply_is_not_specific :
  chat slow_world says_hi fresh
  = ({| table := table fresh;
        calls := [CompletionCall hi_request; AbortSignal] |},
     {| status := 500;
        body := Failure (str "INTERNAL_ERROR") (str "Internal server error")
                  (str "req-1") |})
  /\ reply_kind (snd (chat slow_world says_hi fresh)) = Some InternalError
  /\ reply_kind (snd (chat slow_world says_hi fresh)) <> Some UpstreamTimeout
  /\ snd (chat slow_world says_hi fresh) = snd (chat offline_world says_hi fresh).
Proof.
  repeat split; try (vm_compute; reflexivity). vm_compute. discriminate.
Qed.

(** C7, as amended.  When retrieval is asked for and embedding the latest
    user message fails, the request fails: the reply is the general
    INTERNAL_ERROR reply with the correlation id, and nothing but the one
    embedding call has gone out, so no answer is asked for without the
    retrieved context.  The server has no embedding kind of its own. *)
Theorem embedding_failure_fails_request W req_body st parsed key q st1 e :
  ChatRequestSchema req_body = Some parsed ->
  apiKey W = Some key ->
  use_rag parsed = Some true ->
  lastUser (messages parsed) = Some q ->
  embedText W key (baseUrl W) q st = (st1, Threw e) ->
  chat W req_body st
  = (st1, failure W 500 "INTERNAL_ERROR" (str "Internal server error"))
  /\ reply_kind (snd (chat W req_body st)) = Some InternalError
  /\ reply_requestId (snd (chat W req_body st)) = randomUUID W
  /\ new_calls st st1 = [EmbeddingCall (embedding_request W key (baseUrl W) q)].
Proof.
  intros Hparsed Hkey Hrag Hlast Hembed.
  pose proof (lastUser_nonempty req_body parsed q Hparsed Hlast) as Hq.
  assert (Hrun : chat W req_body st
                 = (st1, failure W 500 "INTERNAL_ERROR" (str "Internal server error"))).
  { rewrite (chat_run W req_body st parsed key Hparsed Hkey), retrieval_run.
    unfold query_of, wants_rag. rewrite Hrag, Hlast.
    destruct q as [|c q]; [congruence|]. cbv zeta.
    rewrite embedText_run in Hembed. cbv zeta in Hembed.
    destruct (embedding_of _) as [e' | v]; simpl in Hembed; [|discriminate].
    injection Hembed as <- _. reflexivity. }
  rewrite Hrun. repeat split.
  rewrite embedText_run in Hembed. injection Hembed as <- _.
  apply new_calls_with_call.
Qed.

Lemma embedding_failure_witness :
  chat broken_embeddings asks_with_rag fresh
  = ({| table := table fresh;
        calls := [EmbeddingCall
                    {| emb_url := str "https://api.deepseek.com/embeddings";
                       emb_authorization := str "Bearer sk-test";
                       emb_model := str "BAAI/bge-m3";
                       emb_input := str "hi" |}] |},
     failure broken_embeddings 500 "INTERNAL_ERROR" (str "Internal server error")).
Proof.
  refine (proj1 (embedding_failure_fails_request broken_embeddings asks_with_rag
                   fresh
                   {| messages := [{| role := str "user"; content := str "hi" |}];
                      temperature := None; max_tokens := None;
                      use_rag := Some true; top_k := None |}
                   (str "sk-test") (str "hi") _ (Error (str "boom")) _ _ _ _ _));
    reflexivity.
Defined.

(** C7, as stated, fails: the embedding failure comes back as
    INTERNAL_ERROR, the very reply that a failed connection to the
    completion provider gets. *)
Lemma embedding_failure_is_not_specific :
  reply_kind (snd (chat broken_embeddings asks_with_rag fresh)) = Some InternalError
  /\ reply_kind (snd (chat broken_embeddings asks_with_rag fresh))
     <> Some EmbeddingUpstreamError
  /\ reply_kind (snd (chat broken_embeddings asks_with_rag fresh))
     <> Some EmbeddingResponseInvalid
  /\ snd (chat broken_embeddings asks_with_rag fresh)
     = snd (chat offline_world says_hi fresh).
Proof.
  repeat split; try (vm_compute; reflexivity); vm_compute; discriminate.
Qed.


(** The batch of one ingest call as it stands in the table afterwards: one
    new row per chunk, in the order of the chunks, numbered from 0. *)
Definition ingested (src : jsstring) (chunks : list jsstring) (st st' : State)
  : Prop :=
  exists added,
    rows (table st') = rows (table st) ++ added /\
    map Store.content added = chunks /\
    map chunk_index added = map Z.of_nat (seq 0 (List.length chunks)) /\
    map source added = map (fun _ => src) chunks.

(** C1.  An ingest call that gets as far as the chunker stores all its
    chunks or none.  When the embedding call of any chunk fails, the table
    is left as it was and the call fails.  When every embedding call
    succeeds, the rows of all chunks are stored in one transaction, in the
    order of the chunker, and the count in the reply is the number of
    chunks (a row that SQLite does not take rolls the whole batch back). *)
Theorem ingest_all_or_nothing W fuel req_body st parsed key chunks :
  RagIngestSchema req_body = Some parsed ->
  apiKey W = Some key ->
  chunkText (chunking (env W)) fuel (ingest_text parsed) = Some chunks ->
  exists st' reply,
    rag_ingest W fuel req_body st = Some (st', reply) /\
    (table st' = table st /\ reply = internal_error_reply W \/
     reply = {| status := 200;
                body := Ingested (randomUUID W) (Z.of_nat (List.length chunks)) |} /\
     ingested (ingest_source parsed) chunks st st') /\
    ((exists j content e,
         nth_error chunks j = Some content /\
         embedding_answer W key (List.length (calls st) + j) content = inl e) ->
     table st' = table st /\ reply = internal_error_reply W) /\
    ((forall j content,
         nth_error chunks j = Some content ->
         exists v, embedding_answer W key (List.length (calls st) + j) content = inr v) ->
     (forall t r, sqlite_accepts W t r = true) ->
     reply = {| status := 200;
                body := Ingested (randomUUID W) (Z.of_nat (List.length chunks)) |} /\
     ingested (ingest_source parsed) chunks st st').
Proof.
  intros Hparsed Hkey Hchunks.
  unfold rag_ingest. rewrite Hparsed, Hkey, Hchunks. unfold handle, bind.
  destruct (embed_chunks W key (ingest_source parsed) 0 chunks st)
    as [st1 [news | e]] eqn:Eembed.
  - pose proof (embed_chunks_table W key _ _ _ _ _ _ Eembed) as Htable.
    pose proof (embed_chunks_rows W key _ _ _ _ _ _ Eembed)
      as (Hcontent & Hindex & Hsrc).
    assert (Hn : List.length news = List.length chunks)
      by (rewrite <- Hcontent; now rewrite length_map).
    assert (Hfailed : (exists j content e,
                          nth_error chunks j = Some content /\
                          embedding_answer W key (List.length (calls st) + j) content
                          = inl e) -> False).
    { intros (j & content & e & Hj & Hfail).
      destruct (embed_chunks_throws W key (ingest_source parsed) chunks 0 st
                  j content e Hj Hfail) as (st2 & e' & Hthrow).
      congruence. }
    destruct (inserted W news st1) as [st2 [count | e]] eqn:Einsert.
    + apply inserted_run in Einsert as (_ & -> & added & Hrows & Hc & Hi & Hs).
      assert (Hall : {| status := 200;
                        body := Ingested (randomUUID W)
                                  (Z.of_nat (List.length news)) |}
                     = {| status := 200;
                          body := Ingested (randomUUID W)
                                    (Z.of_nat (List.length chunks)) |}
                     /\ ingested (ingest_source parsed) chunks st st2).
      { split; [now rewrite Hn|]. exists added. rewrite <- Htable. repeat split.
        - exact Hrows.
        - now rewrite Hc.
        - rewrite Hi, Hindex. apply map_ext. intros j. lia.
        - now rewrite Hs. }
      eexists. eexists. split; [reflexivity|]. unfold ret.
      split; [now right|]. split; [intros H; now apply Hfailed in H | auto].
    + pose proof Einsert as Hrun. apply inserted_run in Hrun as (_ & Hback).
      eexists. eexists. split; [reflexivity|].
      assert (Hsame : table st2 = table st) by congruence.
      split; [now left|]. split; [auto|].
      intros _ Hacc. exfalso.
      unfold inserted, transaction in Einsert.
      destruct (insert_all_accepted W news Hacc 0 st1) as (st3 & c & Hins).
      rewrite Hins in Einsert. discriminate.
  - pose proof (embed_chunks_table W key _ _ _ _ _ _ Eembed) as Htable.
    eexists. eexists. split; [reflexivity|].
    split; [now left|]. split; [auto|].
    intros Hok _. exfalso.
    destruct (embed_chunks_returns W key (ingest_source parsed) chunks 0 st Hok)
      as (st2 & news & Hret & _).
    congruence.
Qed.

Definition two_paragraph_document : json :=
  JObj [(str "source", JStr (str "doc1"));
        (str "text",
         JStr (str "Paragraph A." ++ [LF; LF] ++ str "Paragraph B."))].

Lemma ingest_all_or_nothing_witness :
  exists st' reply,
    rag_ingest (example_world unit_vector {| delay_ms := 35; outcome := hello |})
      1 two_paragraph_document fresh = Some (st', reply) /\
    reply = {| status := 200; body := Ingested (str "req-1") 2 |} /\
    ingested (str "doc1") [str "Paragraph A."; str "Paragraph B."] fresh st'.
Proof.
  destruct (ingest_all_or_nothing
              (example_world unit_vector {| delay_ms := 35; outcome := hello |})
              1 two_paragraph_document fresh
              {| ingest_source := str "doc1";
                 ingest_text := str "Paragraph A." ++ [LF; LF] ++ str "Paragraph B." |}
              (str "sk-test") [str "Paragraph A."; str "Paragraph B."]
              eq_refl eq_refl eq_refl)
    as (st' & reply & Hrun & _ & _ & Hall).
  exists st', reply. split; [exact Hrun|].
  apply Hall; [|reflexivity].
  intros j content Hj. exists RetrieverFacts.ones. reflexivity.
Defined.

Definition library : State :=
  {| table := {| rows := RetrieverFacts.example_rows; last_id := 6 |};
     calls := [] |}.

Definition answering_world : World :=
  example_world unit_vector {| delay_ms := 35; outcome := hello |}.



(** The answer of the example: four rows qualify, cited in the order in
    which their texts stand in the context instruction. *)
Example chat_with_rag_example :
  snd (chat answering_world asks_with_rag library)
  = {| status := 200;
       body :=
         Answer (str "Hello") (str "req-1") (str "deepseek-chat") 35
           [{| cite_id := 4; cite_source := str "doc1"; cite_chunkIndex := 3;
               cite_score := 1 |};
            {| cite_id := 5; cite_source := str "doc1"; cite_chunkIndex := 4;
               cite_score := 1 |};
            {| cite_id := 2; cite_source := str "doc1"; cite_chunkIndex := 1;
               cite_score := 0.5 |};
            {| cite_id := 6; cite_source := str "doc1"; cite_chunkIndex := 5;
               cite_score := 0 |}] |}
  /\ exists req,
       new_calls library (fst (chat answering_world asks_with_rag library))
       = [EmbeddingCall
            {| emb_url := str "https://api.deepseek.com/embeddings";
               emb_authorization := str "Bearer sk-test";
               emb_model := str "BAAI/bge-m3";
               emb_input := str "hi" |};
          CompletionCall req]
       /\ map content (cmp_messages req)
          = [DEFAULT_SYSTEM_PROMPT;
             context_prefix
               ++ str "Source: doc1#3" ++ [LF] ++ str "same" ++ [LF; LF]
               ++ str "Source: doc1#4" ++ [LF] ++ str "again" ++ [LF; LF]
               ++ str "Source: doc1#1" ++ [LF] ++ str "half" ++ [LF; LF]
               ++ str "Source: doc1#5" ++ [LF] ++ str "zero";
             str "hi"].
Proof.
  split; [vm_compute; reflexivity|].
  eexists. split; vm_compute; reflexivity.
Qed.

End ServerFacts.
